(** * go-rego-sql: compiling residual Rego queries to SQL predicates

    A shallow embedding of the Go packages [sqlast] (the SQL AST and its
    rendering protocol) and [go_rego] (the compiler from OPA partial
    queries to that AST), followed by the properties of the compiler and of
    the equality dispatch. *)

From Stdlib Require Import String List Bool Arith ZArith Lia Permutation.
Import ListNotations.
Local Open Scope list_scope.
Local Open Scope string_scope.
Set Warnings "-register-all".

(** ** Go errors

    An error built by [fmt.Errorf] is kept as its format string and its
    operands, so that a wrapped cause ([%w]) stays inspectable. *)
Module fmt.

Inductive error : Type :=
  | Errorf (format : string) (args : list arg)
  with arg : Type :=
  | arg_s (s : string)            (* operand of %s *)
  | arg_q (s : string)            (* operand of %q *)
  | arg_d (n : nat)               (* operand of %d *)
  | arg_T (goType : string)       (* %T: the name of the operand's dynamic type *)
  | arg_w (cause : option error). (* %w: the wrapped error, nil when None *)

End fmt.
Export fmt.

(** ** Package sqlast *)
Module sqlast.

Definition RegoSource := string.

Inductive binaryOperator := binaryOpAnd | binaryOpOr.

(** Modelled from the spec: the node variants of section 3.  The source
    at hand declares [AstNumber] and [equality] (and names [AstBoolean]);
    the declarations of the other variants are missing, and these stand for
    the nodes built by the constructor functions [String], [Array],
    [MemberOf], [And], [Or] and by the variable converter ([column]: a
    pre-rendered fragment, together with the name of its Go type and whether
    that type implements [BooleanNode]). *)
Inductive Node : Type :=
  | AstBoolean (Value : bool)
  | AstString (Value : string)
  | AstNumber (Source : RegoSource) (Value : string)
  | AstArray (Source : RegoSource) (Value : list Node)
  | equality (Left Right : Node) (Not : bool)
  | memberOf (Needle Haystack : Node)
  | binaryOp (Source : RegoSource) (op : binaryOperator) (Terms : list Node)
  | column (goType : string) (boolean : bool) (fragment : string).

(** The dynamic (Go) type of a node: what a type switch or a type
    assertion inspects. *)
Inductive NodeType : Type :=
  | T_AstBoolean | T_AstString | T_AstNumber | T_AstArray
  | T_equality | T_memberOf | T_binaryOp
  | T_column (goType : string) (boolean : bool).

Definition typeOf (n : Node) : NodeType :=
  match n with
  | AstBoolean _ => T_AstBoolean
  | AstString _ => T_AstString
  | AstNumber _ _ => T_AstNumber
  | AstArray _ _ => T_AstArray
  | equality _ _ _ => T_equality
  | memberOf _ _ => T_memberOf
  | binaryOp _ _ _ => T_binaryOp
  | column ty b _ => T_column ty b
  end.

(** What [%T] prints for a node of that type. *)
Definition typeName (t : NodeType) : string :=
  match t with
  | T_AstBoolean => "sqlast.AstBoolean"
  | T_AstString => "sqlast.AstString"
  | T_AstNumber => "sqlast.AstNumber"
  | T_AstArray => "sqlast.AstArray"
  | T_equality => "sqlast.equality"
  | T_memberOf => "sqlast.memberOf"
  | T_binaryOp => "sqlast.binaryOp"
  | T_column ty _ => ty
  end.

(** Modelled from the spec: the node types with an [IsBooleanNode] method
    (the interface [BooleanNode]).  That of [equality] is in the source, and
    [AstNumber] has none; for the other types, sections 3 and 4.2 make
    boolean literals, membership, conjunction and disjunction boolean-valued,
    and literals of another kind not; a column says so itself. *)
Definition implementsBooleanNode (t : NodeType) : bool :=
  match t with
  | T_AstBoolean | T_equality | T_memberOf | T_binaryOp => true
  | T_column _ b => b
  | T_AstString | T_AstNumber | T_AstArray => false
  end.

(** The type assertion [n.(BooleanNode)]. *)
Definition IsBooleanNode (n : Node) : bool := implementsBooleanNode (typeOf n).

(** *** Constructor functions *)

(** func Number(source RegoSource, v json.Number) Node *)
Definition Number (source : RegoSource) (v : string) : Node :=
  AstNumber source v.

(** func Equality(notEquals bool, a, b Node) BooleanNode *)
Definition Equality (notEquals : bool) (a b : Node) : Node :=
  equality a b notEquals.

(** Modelled from the spec: the functions [Bool], [String], [MemberOf],
    [And] and [Or] are missing from the source at hand; each builds the node
    variant of its name (section 3). *)
Definition Bool (b : bool) : Node := AstBoolean b.
Definition String (s : string) : Node := AstString s.
Definition MemberOf (needle haystack : Node) : Node := memberOf needle haystack.
Definition And (source : RegoSource) (terms : list Node) : Node :=
  binaryOp source binaryOpAnd terms.
Definition Or (source : RegoSource) (terms : list Node) : Node :=
  binaryOp source binaryOpOr terms.

(** *** The generation context *)

(** Modelled from the spec: the type [SQLGenerator] and its method
    [AddError] are missing from the source at hand; section 4.1 makes the
    context the accumulator of the generation errors, and [AddError] appends
    to it. *)
Record SQLGenerator : Type := mkSQLGenerator { errors : list error }.

Definition NewSQLGenerator : SQLGenerator := mkSQLGenerator [].

Definition AddError (cfg : SQLGenerator) (e : error) : SQLGenerator :=
  mkSQLGenerator (errors cfg ++ [e])%list.

(** func equalsOp(not bool) string *)
Definition equalsOp (not : bool) : string := if not then "!=" else "=".

(** *** Rendering

    A method that is given the context [cfg *SQLGenerator] takes it as an
    argument and returns it next to its result.  The methods of [AstNumber]
    and [equality] are those of the source; the methods of the other
    variants are missing from it and are taken as parameters. *)
Section Rendering.

(** [UseAs] of the other variants: the type of the node it returns. *)
Variable otherUseAs : Node -> NodeType.
(** Whether the (other) node's type has an [EqualsSQLString] method, and
    that method. *)
Variable otherSupportsEquality : Node -> bool.
Variable otherEqualsSQLString :
  Node -> SQLGenerator -> bool -> Node -> (string + error) * SQLGenerator.
(** [SQLString] of the other variants. *)
Variable otherSQLString : Node -> SQLGenerator -> string * SQLGenerator.

(** func (AstNumber) UseAs() Node { return AstNumber{} }
    func (equality) UseAs() Node  { return equality{} }
    The returned zero value is only used for its type. *)
Definition UseAs (n : Node) : NodeType :=
  match n with
  | AstNumber _ _ => T_AstNumber
  | equality _ _ _ => T_equality
  | _ => otherUseAs n
  end.

(** The type assertion [n.(SupportsEquality)]. *)
Definition SupportsEquality (n : Node) : bool :=
  match n with
  | AstNumber _ _ => true
  | equality _ _ _ => true
  | _ => otherSupportsEquality n
  end.

Definition unsupportedEquality (a : Node) (not : bool) (b : Node) : error :=
  Errorf "unsupported equality: %T %s %T"
         [arg_T (typeName (typeOf a)); arg_s (equalsOp not);
          arg_T (typeName (typeOf b))].

(** The methods call [SQLString] on their operands; they are written
    over the renderer [render], which [SQLString] below closes. *)
Section Methods.

Variable render : Node -> SQLGenerator -> string * SQLGenerator.

(** func basicSQLEquality(cfg *SQLGenerator, not bool, a, b Node) string *)
Definition basicSQLEquality (cfg : SQLGenerator) (not : bool) (a b : Node)
  : string * SQLGenerator :=
  let (sa, cfg1) := render a cfg in
  let (sb, cfg2) := render b cfg1 in
  (sa ++ " " ++ equalsOp not ++ " " ++ sb, cfg2).

(** func (n AstNumber) EqualsSQLString(cfg, not, other) (string, error) *)
Definition AstNumber_EqualsSQLString
  (n : Node) (cfg : SQLGenerator) (not : bool) (other : Node)
  : (string + error) * SQLGenerator :=
  match UseAs other with
  | T_AstNumber =>
      let (s, cfg1) := basicSQLEquality cfg not n other in (inl s, cfg1)
  | _ => (inr (unsupportedEquality n not other), cfg)
  end.

(** func (e equality) EqualsSQLString(cfg, not, other) (string, error) *)
Definition equality_EqualsSQLString
  (e : Node) (cfg : SQLGenerator) (not : bool) (other : Node)
  : (string + error) * SQLGenerator :=
  match UseAs other with
  | T_AstBoolean =>
      let (se, cfg1) := render e cfg in
      let (so, cfg2) := render other cfg1 in
      (inl ("(" ++ se ++ ") " ++ equalsOp not ++ " " ++ so), cfg2)
  | t =>
      if implementsBooleanNode t then
        let (se, cfg1) := render e cfg in
        let (so, cfg2) := render other cfg1 in
        (inl ("(" ++ se ++ ") " ++ equalsOp not ++ " (" ++ so ++ ")"), cfg2)
      else (inr (unsupportedEquality e not other), cfg)
  end.

(** Dynamic dispatch of [EqualsSQLString] on the receiver's type. *)
Definition EqualsSQLString_
  (self : Node) (cfg : SQLGenerator) (not : bool) (other : Node)
  : (string + error) * SQLGenerator :=
  match self with
  | AstNumber _ _ => AstNumber_EqualsSQLString self cfg not other
  | equality _ _ _ => equality_EqualsSQLString self cfg not other
  | _ => otherEqualsSQLString self cfg not other
  end.

(** One attempt of [equality.SQLString]:
    if eq, ok := a.(SupportsEquality); ok {
      v, err := eq.EqualsSQLString(cfg, e.Not, b)
      if err == nil { return v } } *)
Definition tryEquality_
  (a : Node) (cfg : SQLGenerator) (not : bool) (b : Node)
  : option string * SQLGenerator :=
  if SupportsEquality a then
    match EqualsSQLString_ a cfg not b with
    | (inl v, cfg1) => (Some v, cfg1)
    | (inr _, cfg1) => (None, cfg1)
    end
  else (None, cfg).

(** func (e equality) SQLString(cfg *SQLGenerator) string *)
Definition equality_SQLString
  (Left Right : Node) (Not : bool) (cfg : SQLGenerator)
  : string * SQLGenerator :=
  match tryEquality_ Left cfg Not Right with
  | (Some v, cfg1) => (v, cfg1)
  | (None, cfg1) =>
      match tryEquality_ Right cfg1 Not Left with
      | (Some v, cfg2) => (v, cfg2)
      | (None, cfg2) =>
          ("EqualityError",
           AddError cfg2 (unsupportedEquality Left Not Right))
      end
  end.

End Methods.

(** [n.SQLString(cfg)]:
    func (n AstNumber) SQLString(cfg *SQLGenerator) string { return n.Value.String() }
    and [equality.SQLString] above. *)
Fixpoint SQLString (n : Node) (cfg : SQLGenerator) {struct n}
  : string * SQLGenerator :=
  match n with
  | AstNumber _ v => (v, cfg)
  | equality l r nt => equality_SQLString SQLString l r nt cfg
  | _ => otherSQLString n cfg
  end.

(** The methods, closed over [SQLString]. *)
Definition EqualsSQLString := EqualsSQLString_ SQLString.
Definition tryEquality := tryEquality_ SQLString.

(** [a] can render itself compared to [b]: its type has the method and the
    call returns [v] and no error, leaving the context [cfg']. *)
Definition resolves (a : Node) (cfg : SQLGenerator) (not : bool) (b : Node)
  (v : string) (cfg' : SQLGenerator) : Prop :=
  SupportsEquality a = true /\ EqualsSQLString a cfg not b = (inl v, cfg').

(** [a] cannot: its type lacks the method (and the context is untouched), or
    the call returns an error. *)
Definition declines (a : Node) (cfg : SQLGenerator) (not : bool) (b : Node)
  (cfg' : SQLGenerator) : Prop :=
  (SupportsEquality a = false /\ cfg' = cfg)
  \/ (SupportsEquality a = true
      /\ exists e, EqualsSQLString a cfg not b = (inr e, cfg')).

(** The text that a node renders to (in a context with no error yet). *)
Definition renderedText (n : Node) : string :=
  fst (SQLString n NewSQLGenerator).


End Rendering.






End sqlast.


(** ** Package ast (Open Policy Agent): the residual tree

    The input contract of the compiler: terms, expressions, bodies. *)
Module ast.

Record Location : Type := mkLocation { File : string; Row : nat; Col : nat }.

(** type Term struct { Value Value; Location *Location }
    with the implementations of the interface [Value]; [Ref], [Array],
    [Set] and [Call] hold terms ([Set_] is the type [ast.Set], its keys in
    insertion order).  The three comprehension types are kept by name. *)
Inductive Term : Type :=
| mkTerm (v : Value) (loc : option Location)
with Value : Type :=
| Null
| Boolean (b : bool)
| Number (n : string)
| String (s : string)
| Var (v : string)
| Ref (r : list Term)
| Array (elems : list Term)
| Object (kvs : list (Term * Term))
| Set_ (keys : list Term)
| Call (c : list Term)
| Comprehension (goType : string).

Definition Term_Value (t : Term) : Value := let (v, _) := t in v.
Definition Term_Location (t : Term) : option Location := let (_, l) := t in l.

(** What [%T] prints for a value. *)
Definition Value_typeName (v : Value) : string :=
  match v with
  | Null => "ast.Null"
  | Boolean _ => "ast.Boolean"
  | Number _ => "ast.Number"
  | String _ => "ast.String"
  | Var _ => "ast.Var"
  | Ref _ => "ast.Ref"
  | Array _ => "*ast.Array"
  | Object _ => "*ast.object"
  | Set_ _ => "*ast.set"
  | Call _ => "ast.Call"
  | Comprehension ty => ty
  end.

(** Expr.Terms is one of []*Term (a call), *Term (a single term), or a
    declaration of another type, such as SomeDecl or Every. *)
Inductive ExprTerms : Type :=
| Terms_Call (c : list Term)
| Terms_Term (t : Term)
| Terms_Other.

Record Expr : Type := mkExpr { Negated : bool; Terms : ExprTerms }.

(** func (expr *Expr) IsCall() bool { _, ok := expr.Terms.([]*Term); return ok } *)
Definition IsCall (e : Expr) : bool :=
  match Terms e with Terms_Call _ => true | _ => false end.

(** type Body []*Expr *)
Definition Body := list Expr.

Section Ordering.

(** [ast.Compare] on values: negative, zero or positive. *)
Variable Compare : Value -> Value -> Z.

Definition termLess (a b : Term) : bool :=
  (Compare (Term_Value a) (Term_Value b) <? 0)%Z.

Fixpoint insertSorted (x : Term) (l : list Term) : list Term :=
  match l with
  | [] => [x]
  | y :: l' => if termLess x y then x :: y :: l' else y :: insertSorted x l'
  end.

(** func (s *set) Sorted() *Array: the keys of the set, sorted by
    [Compare] (here by insertion), as the elements of a new array. *)
Definition Sorted (keys : list Term) : list Term :=
  fold_right insertSorted [] keys.

End Ordering.

(** The fuel that converting a term needs: one unit per nested conversion,
    and one more for a set, which is converted again as an array. *)
Fixpoint Term_size (t : Term) : nat :=
  match t with
  | mkTerm v _ => Value_size v
  end
with Value_size (v : Value) : nat :=
  match v with
  | Array elems => S (list_sum (map Term_size elems))
  | Set_ keys => S (S (list_sum (map Term_size keys)))
  | Call c => S (list_sum (map Term_size c))
  | _ => 1
  end.

End ast.

(** type PartialQueries struct { Queries []ast.Body; Support []*ast.Module }
    (package rego); the compiler reads [Queries] only. *)
Module rego.

Record PartialQueries : Type := mkPartialQueries { Queries : list ast.Body }.

End rego.

(** ** Package go_rego: the compiler *)
Module go_rego.

(** How a call of a Go function ends: with its result, with a non-nil
    error, or in a run-time panic.  [OutOfFuel] is not an outcome of the
    program: it marks a model run cut short by its fuel. *)
Inductive outcome (A : Type) : Type :=
| Ok (a : A)
| Err (e : error)
| Panic (msg : string)
| OutOfFuel.
Arguments Ok {A} a.
Arguments Err {A} e.
Arguments Panic {A} msg.
Arguments OutOfFuel {A}.

(** The references handed to [ConvertVariable] so far, in order. *)
Definition Consulted := list (list ast.Term).

(** A compilation step: the outcome and the converter calls it made. *)
Definition M (A : Type) : Type := Consulted * outcome A.

Definition ret {A} (a : A) : M A := ([], Ok a).
Definition fail {A} (e : error) : M A := ([], Err e).
Definition panic {A} (msg : string) : M A := ([], Panic msg).

Definition bind {A B} (m : M A) (k : A -> M B) : M B :=
  match m with
  | (l, Ok a) => let (l', o) := k a in ((l ++ l')%list, o)
  | (l, Err e) => (l, Err e)
  | (l, Panic msg) => (l, Panic msg)
  | (l, OutOfFuel) => (l, OutOfFuel)
  end.

(** x, err := m; if err != nil { return nil, wrap(err) } *)
Definition wrapErr {A} (wrap : error -> error) (m : M A) : M A :=
  match m with
  | (l, Err e) => (l, Err (wrap e))
  | _ => m
  end.

Notation "x <- m ;; k" := (bind m (fun x => k))
  (at level 61, m at next level, right associativity).

(** type VariableMatcher interface { ConvertVariable(rego ast.Ref) (Node, bool) }
    (package sqlast, with the signature of the call in [convertTerm]);
    [None] is the result whose flag is false. *)
Record VariableMatcher : Type :=
  mkVariableMatcher { ConvertVariable : list ast.Term -> option sqlast.Node }.

(** type ConvertConfig struct { VariableConverter sqlast.VariableMatcher }
    An interface field may be nil. *)
Record ConvertConfig : Type :=
  mkConvertConfig { VariableConverter : option VariableMatcher }.

Definition newline : string := String.String (Ascii.ascii_of_nat 10) EmptyString.

Section Compiler.

(** The [String] methods of package ast. *)
Variable Value_String : ast.Value -> string.
Variable Expr_String : ast.Expr -> string.
Variable Body_String : ast.Body -> string.
(** [ast.Compare]. *)
Variable Compare : ast.Value -> ast.Value -> Z.
(** func Array(source RegoSource, nodes ...Node) (Node, error), of package
    sqlast; its body is missing from the source at hand. *)
Variable Array : sqlast.RegoSource -> list sqlast.Node -> sqlast.Node + error.

(** func (term *Term) String() string { return term.Value.String() } *)
Definition Term_String (t : ast.Term) : string := Value_String (ast.Term_Value t).

Section Calls.

(** [convertTerm], which [convertTerms] and [convertCall] call back. *)
Variable convertTerm : ConvertConfig -> ast.Term -> M sqlast.Node.

(** The loop of [convertTerms]. *)
Fixpoint convertTermsLoop (cfg : ConvertConfig) (terms : list ast.Term)
  (result : list sqlast.Node) : M (list sqlast.Node) :=
  match terms with
  | [] => ret result
  | t :: terms' =>
      term <- wrapErr (fun err => Errorf "term: %w" [arg_w (Some err)])
                      (convertTerm cfg t) ;;
      convertTermsLoop cfg terms' (result ++ [term])%list
  end.

(** func convertTerms(cfg ConvertConfig, terms []*ast.Term, expected int) ([]sqlast.Node, error) *)
Definition convertTermsWith (cfg : ConvertConfig) (terms : list ast.Term)
  (expected : nat) : M (list sqlast.Node) :=
  if negb (length terms =? expected)%nat then
    fail (Errorf "expected %d terms, got %d" [arg_d expected; arg_d (length terms)])
  else convertTermsLoop cfg terms [].

(** args[i] *)
Definition index {A} (l : list A) (i : nat) : M A :=
  match nth_error l i with
  | Some a => ret a
  | None => panic "index out of range"
  end.

(** func convertCall(cfg ConvertConfig, call ast.Call) (sqlast.Node, error) *)
Definition convertCallWith (cfg : ConvertConfig) (call : list ast.Term)
  : M sqlast.Node :=
  op <- index call 0 ;;
  let args := if (1 <? length call)%nat then tl call else [] in
  let opString := Term_String op in
  if (opString =? "neq") || (opString =? "eq")
     || (opString =? "equals") || (opString =? "equal") then
    args <- wrapErr (fun err => Errorf "arguments: %w" [arg_w (Some err)])
                    (convertTermsWith cfg args 2) ;;
    let not := (opString =? "neq") || (opString =? "notequals")
               || (opString =? "notequal") in
    a0 <- index args 0 ;;
    a1 <- index args 1 ;;
    ret (sqlast.Equality not a0 a1)
  else if opString =? "internal.member_2" then
    args <- wrapErr (fun err => Errorf "arguments: %w" [arg_w (Some err)])
                    (convertTermsWith cfg args 2) ;;
    a0 <- index args 0 ;;
    a1 <- index args 1 ;;
    ret (sqlast.MemberOf a0 a1)
  else
    fail (Errorf "operator %s not supported" [arg_s (Term_String op)]).

(** The loop of the array case of [convertTerm], from index [i] on. *)
Fixpoint convertElems (cfg : ConvertConfig) (t : ast.Value) (i : nat)
  (rest : list ast.Term) (elems : list sqlast.Node) : M (list sqlast.Node) :=
  match rest with
  | [] => ret elems
  | e :: rest' =>
      value <- wrapErr (fun err => Errorf "array element %d in %q: %w"
                          [arg_d i; arg_q (Value_String t); arg_w (Some err)])
                       (convertTerm cfg e) ;;
      convertElems cfg t (S i) rest' (elems ++ [value])%list
  end.

End Calls.

(** Lifting a Go result pair. *)
Definition lift {A} (r : A + error) : M A :=
  match r with inl a => ret a | inr e => fail e end.

(** func convertTerm(cfg ConvertConfig, term *ast.Term) (sqlast.Node, error)
    The set case calls [convertTerm] on a term that it builds, so the
    recursion is on fuel. *)
Fixpoint convertTermFuel (fuel : nat) (cfg : ConvertConfig) (term : ast.Term)
  {struct fuel} : M sqlast.Node :=
  match fuel with
  | O => ([], OutOfFuel)
  | S fuel' =>
      let source : sqlast.RegoSource := Term_String term in
      match ast.Term_Value term with
      | ast.Var _ => fail (Errorf "var not yet supported" [])
      | ast.Ref t =>
          if (length t =? 0)%nat then fail (Errorf "empty ref not supported" [])
          else
            match VariableConverter cfg with
            | None =>
                fail (Errorf "no variable converter provided to handle variables" [])
            | Some converter =>
                match ConvertVariable converter t with
                | None =>
                    ([t], Err (Errorf "variable %q cannot be converted"
                                      [arg_q (Value_String (ast.Ref t))]))
                | Some node => ([t], Ok node)
                end
            end
      | ast.String s => ret (sqlast.String s)
      | ast.Number n => ret (sqlast.Number source n)
      | ast.Boolean b => ret (sqlast.Bool b)
      | ast.Array elems =>
          nodes <- convertElems (convertTermFuel fuel') cfg (ast.Array elems)
                                0 elems [] ;;
          lift (Array source nodes)
      | ast.Object _ => fail (Errorf "object not yet supported" [])
      | ast.Set_ keys =>
          let arr := ast.Array (ast.Sorted Compare keys) in
          convertTermFuel fuel' cfg (ast.mkTerm arr (ast.Term_Location term))
      | ast.Call t => convertCallWith (convertTermFuel fuel') cfg t
      | t => fail (Errorf "%T not yet supported" [arg_T (ast.Value_typeName t)])
      end
  end.

Definition convertTerm (cfg : ConvertConfig) (term : ast.Term) : M sqlast.Node :=
  convertTermFuel (ast.Term_size term) cfg term.

Definition convertTerms := convertTermsWith convertTerm.
Definition convertCall := convertCallWith convertTerm.

(** func convertExpression(cfg ConvertConfig, e *ast.Expr) (sqlast.BooleanNode, error) *)
Definition convertExpression (cfg : ConvertConfig) (e : ast.Expr)
  : M sqlast.Node :=
  if ast.IsCall e then
    call <- match ast.Terms e with
            | ast.Terms_Call call => ret call
            | _ => panic "interface conversion"
            end ;;
    n <- wrapErr (fun err => Errorf "call: %w" [arg_w (Some err)])
                 (convertCall cfg call) ;;
    if negb (sqlast.IsBooleanNode n) then
      fail (Errorf "call %q: not a boolean expression" [arg_q (Expr_String e)])
    else ret n
  else
    (* If it's not a call, it is a single term *)
    match ast.Terms e with
    | ast.Terms_Term term =>
        ty <- wrapErr (fun err => Errorf "convert term %s: %w"
                                    [arg_s (Term_String term); arg_w (Some err)])
                      (convertTerm cfg term) ;;
        if negb (sqlast.IsBooleanNode ty) then
          fail (Errorf "convert term %s is not a boolean: %w"
                       [arg_s (Term_String term); arg_w None])
        else ret ty
    | _ => fail (Errorf "expression %s not supported" [arg_s (Expr_String e)])
    end.

(** The loop of [convertQuery]. *)
Fixpoint convertExpressions (cfg : ConvertConfig) (q : list ast.Expr)
  (expressions : list sqlast.Node) : M (list sqlast.Node) :=
  match q with
  | [] => ret expressions
  | e :: q' =>
      exp <- wrapErr (fun err => Errorf "expression %s: %w"
                                   [arg_s (Expr_String e); arg_w (Some err)])
                     (convertExpression cfg e) ;;
      convertExpressions cfg q' (expressions ++ [exp])%list
  end.

(** func convertQuery(cfg ConvertConfig, q ast.Body) (sqlast.BooleanNode, error) *)
Definition convertQuery (cfg : ConvertConfig) (q : ast.Body) : M sqlast.Node :=
  expressions <- convertExpressions cfg q [] ;;
  ret (sqlast.And (Body_String q) expressions).

(** The first loop of [ConvertRegoAst]: is some query empty? *)
Fixpoint anyEmptyQuery (queries : list ast.Body) : bool :=
  match queries with
  | [] => false
  | q :: queries' => if (length q =? 0)%nat then true else anyEmptyQuery queries'
  end.

(** The second loop of [ConvertRegoAst], from index [i] on. *)
Fixpoint convertQueries (cfg : ConvertConfig) (i : nat) (rest : list ast.Body)
  (builder : string) (queries : list sqlast.Node) : M sqlast.Node :=
  match rest with
  | [] => ret (sqlast.Or builder queries)
  | q :: rest' =>
      converted <- wrapErr (fun err => Errorf "query %s: %w"
                                         [arg_s (Body_String q); arg_w (Some err)])
                           (convertQuery cfg q) ;;
      if negb (sqlast.IsBooleanNode converted) then
        fail (Errorf "query %s: not a boolean expression" [arg_s (Body_String q)])
      else
        let builder := if negb (i =? 0)%nat then builder ++ newline else builder in
        let builder := builder ++ Body_String q in
        convertQueries cfg (S i) rest' builder (queries ++ [converted])%list
  end.

(** func ConvertRegoAst(cfg ConvertConfig, partial *rego.PartialQueries) (sqlast.BooleanNode, error) *)
Definition ConvertRegoAst (cfg : ConvertConfig) (partial : rego.PartialQueries)
  : M sqlast.Node :=
  if (length (rego.Queries partial) =? 0)%nat then
    ret (sqlast.Bool false)
  else if anyEmptyQuery (rego.Queries partial) then
    ret (sqlast.Bool true)
  else
    convertQueries cfg 0 (rego.Queries partial) EmptyString [].

End Compiler.

End go_rego.

(** ** Test data

    A configuration in the manner of compile_test.go, and simple stand-ins
    for the functions that the sections above take as parameters; the
    examples below run the compiler and the renderer on them. *)
Module testdata.

Definition quote : string := String.String (Ascii.ascii_of_nat 34) EmptyString.

(** A printer of terms, in the manner of the String methods of package ast. *)
Fixpoint showTerm (t : ast.Term) : string :=
  match t with
  | ast.mkTerm v _ => showValue v
  end
with showValue (v : ast.Value) : string :=
  match v with
  | ast.Null => "null"
  | ast.Boolean b => if b then "true" else "false"
  | ast.Number n => n
  | ast.String s => quote ++ s ++ quote
  | ast.Var x => x
  | ast.Ref r =>
      String.concat "."
        (map (fun t => match t with
                       | ast.mkTerm (ast.String s) _ => s
                       | _ => showTerm t
                       end) r)
  | ast.Array elems => "[" ++ String.concat ", " (map showTerm elems) ++ "]"
  | ast.Object _ => "{...}"
  | ast.Set_ keys => "{" ++ String.concat ", " (map showTerm keys) ++ "}"
  | ast.Call c =>
      match c with
      | [] => EmptyString
      | op :: args =>
          showTerm op ++ "(" ++ String.concat ", " (map showTerm args) ++ ")"
      end
  | ast.Comprehension ty => ty
  end.

Definition showExpr (e : ast.Expr) : string :=
  (if ast.Negated e then "not " else EmptyString)
  ++ match ast.Terms e with
     | ast.Terms_Call c => showValue (ast.Call c)
     | ast.Terms_Term t => showTerm t
     | ast.Terms_Other => "some"
     end.

Definition showBody (q : ast.Body) : string :=
  String.concat "; " (map showExpr q).

(** An order on values: that of their printed forms. *)
Definition compareValues (a b : ast.Value) : Z :=
  match String.compare (showValue a) (showValue b) with
  | Lt => (-1)%Z
  | Eq => 0%Z
  | Gt => 1%Z
  end.

(** An [Array] constructor that accepts every list of nodes. *)
Definition anyArray (source : sqlast.RegoSource) (nodes : list sqlast.Node)
  : sqlast.Node + error :=
  inl (sqlast.AstArray source nodes).

Definition term (v : ast.Value) : ast.Term := ast.mkTerm v None.

Definition ref (path : list string) : ast.Term :=
  match path with
  | [] => term (ast.Ref [])
  | x :: fields => term (ast.Ref (term (ast.Var x) :: map (fun f => term (ast.String f)) fields))
  end.

(** The call [op(args...)]. *)
Definition call (op : string) (args : list ast.Term) : list ast.Term :=
  ref [op] :: args.

(** A converter with two columns: the string [author] and the boolean
    [deleted]. *)
Definition columns : go_rego.VariableMatcher :=
  go_rego.mkVariableMatcher
    (fun r =>
       let path := showValue (ast.Ref r) in
       if path =? "input.post.author" then
         Some (sqlast.column "sqlast.stringVar" false "author")
       else if path =? "input.post.deleted" then
         Some (sqlast.column "sqlast.boolVar" true "deleted")
       else None).

Definition cfg : go_rego.ConvertConfig := go_rego.mkConvertConfig (Some columns).
Definition noConverter : go_rego.ConvertConfig := go_rego.mkConvertConfig None.

Definition author : ast.Term := ref ["input"; "post"; "author"].
Definition deleted : ast.Term := ref ["input"; "post"; "deleted"].
Definition unknown : ast.Term := ref ["input"; "post"; "undeclared"].
Definition bob : ast.Term := term (ast.String "bob").

Definition exprCall (op : string) (args : list ast.Term) : ast.Expr :=
  ast.mkExpr false (ast.Terms_Call (call op args)).
Definition exprTerm (t : ast.Term) : ast.Expr :=
  ast.mkExpr false (ast.Terms_Term t).

(** Stand-ins for the methods of the node variants outside the source:
    literals and columns render to their text, and a string-kind node
    compares itself to a string-kind node. *)
Definition leafText (n : sqlast.Node) : string :=
  match n with
  | sqlast.AstBoolean b => if b then "true" else "false"
  | sqlast.AstString s => "'" ++ s ++ "'"
  | sqlast.AstNumber _ v => v
  | sqlast.column _ _ fragment => fragment
  | _ => "?"
  end.

Definition leafUseAs (n : sqlast.Node) : sqlast.NodeType :=
  match n with
  | sqlast.column _ b _ => if b then sqlast.T_AstBoolean else sqlast.T_AstString
  | _ => sqlast.typeOf n
  end.

Definition leafSupportsEquality (n : sqlast.Node) : bool :=
  match leafUseAs n with
  | sqlast.T_AstString => true
  | _ => false
  end.

Definition leafEqualsSQLString (n : sqlast.Node) (g : sqlast.SQLGenerator)
  (not : bool) (other : sqlast.Node) : (string + error) * sqlast.SQLGenerator :=
  match leafUseAs other with
  | sqlast.T_AstString =>
      (inl (leafText n ++ " " ++ sqlast.equalsOp not ++ " " ++ leafText other), g)
  | _ => (inr (sqlast.unsupportedEquality n not other), g)
  end.

Definition leafSQLString (n : sqlast.Node) (g : sqlast.SQLGenerator)
  : string * sqlast.SQLGenerator := (leafText n, g).

(** Stand-ins that leave a trace: columns of the number kind, whose
    comparison method records each of its calls in the context. *)
Definition tracedUseAs (n : sqlast.Node) : sqlast.NodeType :=
  match n with
  | sqlast.column _ _ _ => sqlast.T_AstNumber
  | _ => sqlast.typeOf n
  end.

Definition tracedSupportsEquality (n : sqlast.Node) : bool :=
  match n with
  | sqlast.column _ _ _ => true
  | _ => false
  end.

Definition tracedEqualsSQLString (n : sqlast.Node) (g : sqlast.SQLGenerator)
  (not : bool) (other : sqlast.Node) : (string + error) * sqlast.SQLGenerator :=
  (inl (leafText n ++ " " ++ sqlast.equalsOp not ++ " " ++ leafText other),
   sqlast.AddError g (Errorf "EqualsSQLString called on %s" [arg_s (leafText n)])).

Definition ageColumn : sqlast.Node := sqlast.column "sqlast.numberVar" false "age".

Definition authorColumn : sqlast.Node :=
  sqlast.column "sqlast.stringVar" false "author".
Definition one : sqlast.Node := sqlast.Number "1" "1".
Definition two : sqlast.Node := sqlast.Number "2" "2".

End testdata.

(** ** More test data *)
Module fixtures.
Import testdata.

(** The path of a reference term, as the converter receives it. *)
Definition pathOf (t : ast.Term) : list ast.Term :=
  match ast.Term_Value t with
  | ast.Ref r => r
  | _ => []
  end.

Definition deletedColumn : sqlast.Node :=
  sqlast.column "sqlast.boolVar" true "deleted".

End fixtures.

(** ** The input contract on calls *)
Module contract.

(** Every call that the conversion of the term can reach has its operator
    term, the [call[0]] of [convertCall]: the call itself when the term is
    one, and the calls among its arguments, the elements of an array and
    the keys of a set. *)
Fixpoint Term_callsHaveOperator (t : ast.Term) : bool :=
  match t with
  | ast.mkTerm v _ => Value_callsHaveOperator v
  end
with Value_callsHaveOperator (v : ast.Value) : bool :=
  match v with
  | ast.Array elems => forallb Term_callsHaveOperator elems
  | ast.Set_ keys => forallb Term_callsHaveOperator keys
  | ast.Call c =>
      match c with
      | [] => false
      | _ :: args => forallb Term_callsHaveOperator args
      end
  | _ => true
  end.

Definition Expr_callsHaveOperator (e : ast.Expr) : bool :=
  match ast.Terms e with
  | ast.Terms_Call c => Value_callsHaveOperator (ast.Call c)
  | ast.Terms_Term t => Term_callsHaveOperator t
  | ast.Terms_Other => true
  end.

Definition Queries_callsHaveOperator (queries : list ast.Body) : bool :=
  forallb (forallb Expr_callsHaveOperator) queries.

Section Supported.

Variable Value_String : ast.Value -> string.

(** The operator names of the switch of [convertCall]. *)
Definition supportedOperator (op : ast.Term) : bool :=
  let opString := Value_String (ast.Term_Value op) in
  (opString =? "neq") || (opString =? "eq") || (opString =? "equals")
  || (opString =? "equal") || (opString =? "internal.member_2").

(** The shape of the terms that [convertTerm] has a case for: literals,
    references that are not empty, arrays and sets of such terms, and calls
    of a supported operator on two such terms. *)
Fixpoint Term_supported (t : ast.Term) : bool :=
  match t with
  | ast.mkTerm v _ => Value_supported v
  end
with Value_supported (v : ast.Value) : bool :=
  match v with
  | ast.Ref r => negb (length r =? 0)%nat
  | ast.String _ | ast.Number _ | ast.Boolean _ => true
  | ast.Array elems => forallb Term_supported elems
  | ast.Set_ keys => forallb Term_supported keys
  | ast.Call c =>
      match c with
      | [op; a; b] => supportedOperator op && Term_supported a && Term_supported b
      | _ => false
      end
  | _ => false
  end.

Definition Expr_supported (e : ast.Expr) : bool :=
  match ast.Terms e with
  | ast.Terms_Call c => Value_supported (ast.Call c)
  | ast.Terms_Term t => Term_supported t
  | ast.Terms_Other => false
  end.

End Supported.

End contract.

(** ** Trees of numbers and comparisons

    The nodes built from the two variants whose methods are all in the
    source. *)
Module kinds.

Fixpoint sourceOnly (n : sqlast.Node) : bool :=
  match n with
  | sqlast.AstNumber _ _ => true
  | sqlast.equality l r _ => sourceOnly l && sourceOnly r
  | _ => false
  end.

(** Two numbers, or two comparisons. *)
Definition sameKind (a b : sqlast.Node) : bool :=
  match a, b with
  | sqlast.AstNumber _ _, sqlast.AstNumber _ _ => true
  | sqlast.equality _ _ _, sqlast.equality _ _ _ => true
  | _, _ => false
  end.

(** Every comparison of the tree has operands of one kind. *)
Fixpoint homogeneous (n : sqlast.Node) : bool :=
  match n with
  | sqlast.equality l r _ => sameKind l r && homogeneous l && homogeneous r
  | _ => true
  end.

End kinds.

(** ** The order of [ast.Compare] on the keys of a set *)
Module ordering.

Section Order.

Variable Compare : ast.Value -> ast.Value -> Z.

(** [Compare] on the values of two terms. *)
Definition cmp (a b : ast.Term) : Z :=
  Compare (ast.Term_Value a) (ast.Term_Value b).

(** [a] does not come after [b]. *)
Definition notAfter (a b : ast.Term) : Prop := (cmp a b <= 0)%Z.

(** The list is in ascending order: no element comes after a later one. *)
Definition ascending (l : list ast.Term) : Prop := ForallOrdPairs notAfter l.

(** [Compare] orders the keys: it is a three-way comparison on them (one
    key is before another exactly when the other is after it), its strict
    part is transitive, and it is zero on a key and itself only, as on the
    keys of a set, which holds a value once. *)
Definition totalOn (keys : list ast.Term) : Prop :=
  (forall x y, In x keys -> In y keys ->
     (cmp x y < 0)%Z <-> (0 < cmp y x)%Z)
  /\ (forall x y z, In x keys -> In y keys -> In z keys ->
        (cmp x y < 0)%Z -> (cmp y z < 0)%Z -> (cmp x z < 0)%Z)
  /\ (forall x y, In x keys -> In y keys -> cmp x y = 0%Z -> x = y).

End Order.

End ordering.

(** ** The boolean literal, from the specification *)
Module specmodel.
Import sqlast.






End specmodel.

(** * Properties of the compiler *)
Module CompilerSpec.
Import go_rego.

Section Props.

Variable Value_String : ast.Value -> string.
Variable Expr_String : ast.Expr -> string.
Variable Body_String : ast.Body -> string.
Variable Compare : ast.Value -> ast.Value -> Z.
Variable Array : sqlast.RegoSource -> list sqlast.Node -> sqlast.Node + error.

Local Abbreviation convertTermFuel := (convertTermFuel Value_String Compare Array).
Local Abbreviation convertTerm := (convertTerm Value_String Compare Array).
Local Abbreviation convertCall := (convertCall Value_String Compare Array).
Local Abbreviation convertTerms := (convertTerms Value_String Compare Array).
Local Abbreviation convertExpression :=
  (convertExpression Value_String Expr_String Compare Array).
Local Abbreviation convertQuery :=
  (convertQuery Value_String Expr_String Body_String Compare Array).
Local Abbreviation convertQueries :=
  (convertQueries Value_String Expr_String Body_String Compare Array).
Local Abbreviation ConvertRegoAst :=
  (ConvertRegoAst Value_String Expr_String Body_String Compare Array).

Lemma insertSorted_perm x l :
  Permutation (ast.insertSorted Compare x l) (x :: l).
Proof.
  induction l as [|y l IH]; simpl.
  - apply Permutation_refl.
  - destruct (ast.termLess Compare x y).
    + apply Permutation_refl.
    + eapply perm_trans; [apply perm_skip, IH | apply perm_swap].
Qed.

Lemma Sorted_perm keys : Permutation (ast.Sorted Compare keys) keys.
Proof.
  induction keys as [|k keys IH]; simpl.
  - constructor.
  - eapply perm_trans; [apply insertSorted_perm | now apply perm_skip].
Qed.

Lemma list_sum_perm (l l' : list nat) :
  Permutation l l' -> list_sum l = list_sum l'.
Proof.
  induction 1; simpl; lia.
Qed.

Lemma Sorted_size keys :
  list_sum (map ast.Term_size (ast.Sorted Compare keys))
  = list_sum (map ast.Term_size keys).
Proof.
  apply list_sum_perm, Permutation_map, Sorted_perm.
Qed.

Lemma In_size_le (t : ast.Term) l :
  In t l -> ast.Term_size t <= list_sum (map ast.Term_size l).
Proof.
  induction l as [|u l IH]; simpl; [tauto|].
  intros [->|H]; [lia | specialize (IH H); lia].
Qed.

Lemma Term_size_pos t : 1 <= ast.Term_size t.
Proof.
  destruct t as [v loc]; destruct v; simpl; lia.
Qed.

(** The helpers only call [convertTerm] on the terms they are given. *)
Lemma convertTermsLoop_ext f g cfg terms :
  (forall t, In t terms -> f cfg t = g cfg t) ->
  forall result,
    convertTermsLoop f cfg terms result = convertTermsLoop g cfg terms result.
Proof.
  induction terms as [|t terms IH]; intros H result; simpl; [reflexivity|].
  rewrite (H t (or_introl eq_refl)).
  destruct (g cfg t) as [l [n|e|msg|]]; simpl; try reflexivity.
  rewrite IH; [reflexivity|]. intros u Hu. apply H. now right.
Qed.

Lemma convertTermsWith_ext f g cfg terms expected :
  (forall t, In t terms -> f cfg t = g cfg t) ->
  convertTermsWith f cfg terms expected = convertTermsWith g cfg terms expected.
Proof.
  intros H. unfold convertTermsWith.
  destruct (negb _); [reflexivity|]. now apply convertTermsLoop_ext.
Qed.

Lemma convertElems_ext f g cfg v rest :
  (forall t, In t rest -> f cfg t = g cfg t) ->
  forall i elems,
    convertElems Value_String f cfg v i rest elems
    = convertElems Value_String g cfg v i rest elems.
Proof.
  induction rest as [|t rest IH]; intros H i elems; simpl; [reflexivity|].
  rewrite (H t (or_introl eq_refl)).
  destruct (g cfg t) as [l [n|e|msg|]]; simpl; try reflexivity.
  rewrite IH; [reflexivity|]. intros u Hu. apply H. now right.
Qed.

Lemma convertCallWith_ext f g cfg call :
  (forall t, In t (tl call) -> f cfg t = g cfg t) ->
  convertCallWith Value_String f cfg call
  = convertCallWith Value_String g cfg call.
Proof.
  intros H. unfold convertCallWith.
  assert (E : forall n,
             convertTermsWith f cfg (if (1 <? length call)%nat then tl call else []) n
             = convertTermsWith g cfg (if (1 <? length call)%nat then tl call else []) n).
  { intros n. apply convertTermsWith_ext.
    destruct (1 <? length call)%nat; [exact H | intros t []]. }
  destruct (index call 0) as [l [op| | |]]; simpl; try reflexivity.
  rewrite !E. reflexivity.
Qed.

(** Fuel beyond the size of the term does not change the result. *)
Lemma convertTermFuel_stable n :
  forall m cfg t,
    ast.Term_size t <= n -> ast.Term_size t <= m ->
    convertTermFuel n cfg t = convertTermFuel m cfg t.
Proof.
  induction n as [|n IH]; intros m cfg t Hn Hm.
  - pose proof (Term_size_pos t). lia.
  - destruct m as [|m]; [pose proof (Term_size_pos t); lia|].
    destruct t as [v loc]. destruct v; simpl in *; try reflexivity.
    + (* Array *)
      rewrite (convertElems_ext (convertTermFuel n) (convertTermFuel m));
        [reflexivity|].
      intros t Ht. pose proof (In_size_le _ _ Ht). apply IH; lia.
    + (* Set *)
      apply IH; simpl; rewrite Sorted_size; lia.
    + (* Call *)
      apply convertCallWith_ext.
      intros t Ht. assert (In t c) by (destruct c; [destruct Ht | now right]).
      pose proof (In_size_le _ _ H). apply IH; lia.
Qed.

Lemma convertTermFuel_enough n cfg t :
  ast.Term_size t <= n -> convertTermFuel n cfg t = convertTerm cfg t.
Proof.
  intros H. unfold go_rego.convertTerm. apply convertTermFuel_stable; lia.
Qed.

(** The location of a term plays no part in its conversion. *)
Lemma convertTermFuel_loc n :
  forall cfg v loc loc',
    convertTermFuel n cfg (ast.mkTerm v loc)
    = convertTermFuel n cfg (ast.mkTerm v loc').
Proof.
  induction n as [|n IH]; intros cfg v loc loc'; [reflexivity|].
  destruct v; simpl; try reflexivity. apply IH.
Qed.

Lemma convertTerm_loc cfg v loc loc' :
  convertTerm cfg (ast.mkTerm v loc) = convertTerm cfg (ast.mkTerm v loc').
Proof. apply convertTermFuel_loc. Qed.

(** The equations of [convertTerm] on the recursive cases. *)
Lemma convertTerm_Set cfg keys loc :
  convertTerm cfg (ast.mkTerm (ast.Set_ keys) loc)
  = convertTerm cfg (ast.mkTerm (ast.Array (ast.Sorted Compare keys)) loc).
Proof.
  unfold go_rego.convertTerm at 1.
  change (ast.Term_size (ast.mkTerm (ast.Set_ keys) loc))
    with (S (S (list_sum (map ast.Term_size keys)))).
  change (convertTermFuel (S (S (list_sum (map ast.Term_size keys)))) cfg
            (ast.mkTerm (ast.Set_ keys) loc))
    with (convertTermFuel (S (list_sum (map ast.Term_size keys))) cfg
            (ast.mkTerm (ast.Array (ast.Sorted Compare keys)) loc)).
  apply convertTermFuel_enough. simpl. rewrite Sorted_size. lia.
Qed.

Lemma convertTerm_Call cfg c loc :
  convertTerm cfg (ast.mkTerm (ast.Call c) loc) = convertCall cfg c.
Proof.
  unfold go_rego.convertTerm at 1, go_rego.convertCall.
  change (ast.Term_size (ast.mkTerm (ast.Call c) loc))
    with (S (list_sum (map ast.Term_size c))).
  cbn [go_rego.convertTermFuel ast.Term_Value].
  apply convertCallWith_ext. intros t Ht.
  apply convertTermFuel_enough, In_size_le.
  destruct c; [destruct Ht | now right].
Qed.

Lemma convertTerm_Array cfg elems loc :
  convertTerm cfg (ast.mkTerm (ast.Array elems) loc)
  = (nodes <- convertElems Value_String convertTerm cfg (ast.Array elems)
                           0 elems [] ;;
     lift (Array (Value_String (ast.Array elems)) nodes)).
Proof.
  unfold go_rego.convertTerm at 1.
  change (ast.Term_size (ast.mkTerm (ast.Array elems) loc))
    with (S (list_sum (map ast.Term_size elems))).
  cbn [go_rego.convertTermFuel ast.Term_Value].
  rewrite (convertElems_ext _ convertTerm); [reflexivity|].
  intros t Ht. apply convertTermFuel_enough, In_size_le, Ht.
Qed.

(** *** Every conversion returns

    With the fuel that [convertTerm] gives itself, the model never runs
    out: a conversion ends with a node, an error or a panic. *)
Lemma bind_ret_l {A B} (a : A) (k : A -> M B) : bind (ret a) k = k a.
Proof. unfold bind, ret. now destruct (k a). Qed.

Lemma bind_returns {A B} (m : M A) (k : A -> M B) :
  snd m <> OutOfFuel -> (forall a, snd (k a) <> OutOfFuel) ->
  snd (bind m k) <> OutOfFuel.
Proof.
  destruct m as [l [a|e|msg|]]; simpl; intros Hm Hk; try discriminate.
  - specialize (Hk a). destruct (k a) as [l' o]. exact Hk.
  - now elim Hm.
Qed.

Lemma wrapErr_returns {A} wrap (m : M A) :
  snd m <> OutOfFuel -> snd (wrapErr wrap m) <> OutOfFuel.
Proof.
  destruct m as [l [a|e|msg|]]; simpl; intros Hm; try discriminate; exact Hm.
Qed.

Lemma index_returns {A} (l : list A) i : snd (index l i) <> OutOfFuel.
Proof. unfold index. destruct (nth_error l i); discriminate. Qed.

Lemma convertTermsLoop_returns f cfg terms :
  (forall t, In t terms -> snd (f cfg t) <> OutOfFuel) ->
  forall result, snd (convertTermsLoop f cfg terms result) <> OutOfFuel.
Proof.
  induction terms as [|t terms IH]; intros H result; simpl; [discriminate|].
  apply bind_returns.
  - apply wrapErr_returns, H. now left.
  - intros a. apply IH. intros u Hu. apply H. now right.
Qed.

Lemma convertTermsWith_returns f cfg terms expected :
  (forall t, In t terms -> snd (f cfg t) <> OutOfFuel) ->
  snd (convertTermsWith f cfg terms expected) <> OutOfFuel.
Proof.
  intros H. unfold convertTermsWith.
  destruct (negb _); [discriminate | now apply convertTermsLoop_returns].
Qed.

Lemma convertElems_returns f cfg v rest :
  (forall t, In t rest -> snd (f cfg t) <> OutOfFuel) ->
  forall i elems,
    snd (convertElems Value_String f cfg v i rest elems) <> OutOfFuel.
Proof.
  induction rest as [|t rest IH]; intros H i elems; simpl; [discriminate|].
  apply bind_returns.
  - apply wrapErr_returns, H. now left.
  - intros a. apply IH. intros u Hu. apply H. now right.
Qed.

Lemma convertCallWith_returns f cfg call :
  (forall t, In t (tl call) -> snd (f cfg t) <> OutOfFuel) ->
  snd (convertCallWith Value_String f cfg call) <> OutOfFuel.
Proof.
  intros H. unfold convertCallWith.
  assert (E : forall n,
             snd (convertTermsWith f cfg
                    (if (1 <? length call)%nat then tl call else []) n)
             <> OutOfFuel).
  { intros n. apply convertTermsWith_returns.
    destruct (1 <? length call)%nat; [exact H | intros t []]. }
  apply bind_returns; [apply index_returns|]. intros op.
  repeat match goal with
         | |- snd (if ?c then _ else _) <> _ => destruct c
         | |- snd (bind _ _) <> _ => apply bind_returns; [|intros ?]
         | |- snd (wrapErr _ _) <> _ => apply wrapErr_returns
         | |- snd (index _ _) <> _ => apply index_returns
         | |- snd (convertTermsWith _ _ _ _) <> _ => apply E
         | |- snd (ret _) <> _ => discriminate
         | |- snd (fail _) <> _ => discriminate
         end.
Qed.

Lemma convertTermFuel_returns n :
  forall cfg t, ast.Term_size t <= n -> snd (convertTermFuel n cfg t) <> OutOfFuel.
Proof.
  induction n as [|n IH]; intros cfg t Hn.
  - pose proof (Term_size_pos t). lia.
  - destruct t as [v loc]. destruct v; simpl in *; try discriminate.
    + (* Ref *)
      destruct (length r =? 0)%nat; [discriminate|].
      destruct (VariableConverter cfg) as [vc|]; [|discriminate].
      destruct (ConvertVariable vc r); discriminate.
    + (* Array *)
      apply bind_returns.
      * apply convertElems_returns. intros t Ht.
        pose proof (In_size_le _ _ Ht). apply IH. lia.
      * intros nodes. destruct (Array _ nodes); discriminate.
    + (* Set *)
      apply IH. simpl. rewrite Sorted_size. lia.
    + (* Call *)
      apply convertCallWith_returns. intros t Ht.
      assert (In t c) by (destruct c; [destruct Ht | now right]).
      pose proof (In_size_le _ _ H). apply IH. lia.
Qed.

Lemma convertTerm_returns cfg t : snd (convertTerm cfg t) <> OutOfFuel.
Proof. apply convertTermFuel_returns. lia. Qed.

Lemma convertCall_returns cfg call : snd (convertCall cfg call) <> OutOfFuel.
Proof.
  apply convertCallWith_returns. intros t _. apply convertTerm_returns.
Qed.

Lemma convertExpression_returns cfg e :
  snd (convertExpression cfg e) <> OutOfFuel.
Proof.
  unfold go_rego.convertExpression, ast.IsCall.
  destruct (ast.Terms e) as [call|term|]; [| |discriminate].
  - rewrite bind_ret_l. apply bind_returns.
    + apply wrapErr_returns, convertCall_returns.
    + intros n; destruct (negb _); discriminate.
  - apply bind_returns.
    + apply wrapErr_returns, convertTerm_returns.
    + intros n; destruct (negb _); discriminate.
Qed.

Lemma convertExpressions_returns cfg q :
  forall expressions,
    snd (convertExpressions Value_String Expr_String Compare Array
           cfg q expressions) <> OutOfFuel.
Proof.
  induction q as [|e q IH]; intros expressions; simpl; [discriminate|].
  apply bind_returns; [apply wrapErr_returns, convertExpression_returns|].
  intros exp. apply IH.
Qed.

Lemma convertQuery_returns cfg q : snd (convertQuery cfg q) <> OutOfFuel.
Proof.
  apply bind_returns; [apply convertExpressions_returns | discriminate].
Qed.

Lemma convertQueries_returns cfg rest :
  forall i builder queries,
    snd (convertQueries cfg i rest builder queries) <> OutOfFuel.
Proof.
  induction rest as [|q rest IH]; intros i builder queries; simpl;
    [discriminate|].
  apply bind_returns; [apply wrapErr_returns, convertQuery_returns|].
  intros converted. destruct (negb _); [discriminate | apply IH].
Qed.

Theorem ConvertRegoAst_returns cfg partial :
  snd (ConvertRegoAst cfg partial) <> OutOfFuel.
Proof.
  unfold go_rego.ConvertRegoAst.
  destruct (_ =? 0)%nat; [discriminate|].
  destruct (anyEmptyQuery _); [discriminate | apply convertQueries_returns].
Qed.

(** *** The top level *)

Lemma anyEmptyQuery_In queries :
  anyEmptyQuery queries = true <-> In [] queries.
Proof.
  induction queries as [|q queries IH]; simpl.
  - split; [discriminate | tauto].
  - destruct q as [|e q]; simpl.
    + split; auto.
    + rewrite IH. split; [now right | intros [H|H]; [discriminate | exact H]].
Qed.

(** C1. When the partial query set has no query, [ConvertRegoAst] returns
    the boolean literal [false] and no error, whatever the configuration,
    and never calls the variable converter. *)
Theorem ConvertRegoAst_no_queries cfg partial :
  rego.Queries partial = [] ->
  ConvertRegoAst cfg partial = ([], Ok (sqlast.Bool false)).
Proof.
  intros H. unfold go_rego.ConvertRegoAst. rewrite H. reflexivity.
Qed.

Lemma ConvertRegoAst_anyEmptyQuery cfg partial :
  anyEmptyQuery (rego.Queries partial) = true ->
  ConvertRegoAst cfg partial = ([], Ok (sqlast.Bool true)).
Proof.
  intros H. unfold go_rego.ConvertRegoAst.
  destruct (rego.Queries partial) as [|q queries]; [discriminate H|].
  change (length (q :: queries) =? 0)%nat with false. cbv iota.
  now rewrite H.
Qed.

(** C2. When the partial query set is not empty and one of its queries has
    no expression, [ConvertRegoAst] returns the boolean literal [true] and
    no error. *)
Theorem ConvertRegoAst_empty_query cfg partial :
  rego.Queries partial <> [] ->
  In [] (rego.Queries partial) ->
  ConvertRegoAst cfg partial = ([], Ok (sqlast.Bool true)).
Proof.
  intros _ Hin. now apply ConvertRegoAst_anyEmptyQuery, anyEmptyQuery_In.
Qed.

(** A compilation that succeeds has converted every query. *)
Lemma convertQueries_Ok cfg rest :
  forall i builder queries l n,
    convertQueries cfg i rest builder queries = (l, Ok n) ->
    forall q, In q rest -> exists l' n', convertQuery cfg q = (l', Ok n').
Proof.
  induction rest as [|q0 rest IH]; intros i builder queries l n H q Hq;
    [destruct Hq|].
  simpl in H.
  destruct (convertQuery cfg q0) as [l0 [n0|e0|msg0|]] eqn:E0;
    simpl in H; try discriminate.
  destruct (negb (sqlast.IsBooleanNode n0)); simpl in H; [discriminate|].
  destruct Hq as [<-|Hq]; [eauto|].
  destruct (convertQueries cfg (S i) rest _ _) as [l1 o1] eqn:E1.
  injection H as _ ->. eapply IH; eauto.
Qed.

(** C9. A query with no expression decides the compilation before any
    conversion: the result is the literal [true], with no error and no call
    to the variable converter, although another query of the set does not
    convert; without its empty queries the same set does not compile. *)
Theorem empty_query_short_circuits cfg partial bad l e :
  In [] (rego.Queries partial) ->
  In bad (rego.Queries partial) ->
  convertQuery cfg bad = (l, Err e) ->
  ConvertRegoAst cfg partial = ([], Ok (sqlast.Bool true))
  /\ forall l' n,
       ConvertRegoAst cfg
         (rego.mkPartialQueries
            (filter (fun q => negb (length q =? 0)%nat) (rego.Queries partial)))
       <> (l', Ok n).
Proof.
  intros Hempty Hbad Hfail. split.
  - now apply ConvertRegoAst_anyEmptyQuery, anyEmptyQuery_In.
  - intros l' n H.
    assert (Hne : bad <> []).
    { intros ->. cbv in Hfail. discriminate. }
    assert (Hin : In bad (filter (fun q => negb (length q =? 0)%nat)
                            (rego.Queries partial))).
    { apply filter_In. split; [exact Hbad|]. destruct bad; [now elim Hne|reflexivity]. }
    unfold go_rego.ConvertRegoAst in H. simpl rego.Queries in H.
    destruct (filter _ _) as [|q0 rest] eqn:E; [destruct Hin|].
    change (length (q0 :: rest) =? 0)%nat with false in H. cbv iota in H.
    destruct (anyEmptyQuery (q0 :: rest)) eqn:Ea.
    + apply anyEmptyQuery_In in Ea. rewrite <- E in Ea.
      apply filter_In in Ea. destruct Ea as [_ Ea]. discriminate.
    + destruct (convertQueries_Ok _ _ _ _ _ _ _ H bad Hin) as (l1 & n1 & E1).
      rewrite Hfail in E1. discriminate.
Qed.

(** *** Terms *)

(** The array loop, when every element converts. *)
Lemma convertElems_all f cfg v elems rs :
  Forall2 (fun t r => f cfg t = (fst r, Ok (snd r))) elems rs ->
  forall i acc,
    convertElems Value_String f cfg v i elems acc
    = (concat (map fst rs), Ok (acc ++ map snd rs)%list).
Proof.
  induction 1 as [|t r elems rs Ht _ IH]; intros i acc; simpl.
  - now rewrite app_nil_r.
  - rewrite Ht. simpl. rewrite IH. now rewrite <- app_assoc.
Qed.

(** [Sorted] puts the keys in the order of [Compare]. *)
Lemma termLess_lt a b :
  ast.termLess Compare a b = true <-> (ordering.cmp Compare a b < 0)%Z.
Proof. unfold ast.termLess, ordering.cmp. apply Z.ltb_lt. Qed.

Lemma termLess_ge a b :
  ast.termLess Compare a b = false <-> (0 <= ordering.cmp Compare a b)%Z.
Proof.
  unfold ast.termLess, ordering.cmp. rewrite Z.ltb_ge. reflexivity.
Qed.

Lemma totalOn_incl keys l :
  ordering.totalOn Compare keys -> incl l keys -> ordering.totalOn Compare l.
Proof.
  intros (H3 & Ht & H0) Hl. repeat split.
  - now apply H3; apply Hl.
  - now apply H3; apply Hl.
  - intros x y z Hx Hy Hz. apply Ht; now apply Hl.
  - intros x y Hx Hy. apply H0; now apply Hl.
Qed.

Lemma insertSorted_ascending x l :
  ordering.totalOn Compare (x :: l) ->
  ordering.ascending Compare l ->
  ordering.ascending Compare (ast.insertSorted Compare x l).
Proof.
  unfold ordering.ascending.
  induction l as [|y l IH]; intros Htot Hasc; simpl.
  - constructor; constructor.
  - pose proof Htot as (H3 & Ht & H0).
    inversion Hasc as [|y' l' Hy Hl]; subst.
    destruct (ast.termLess Compare x y) eqn:E.
    + apply termLess_lt in E.
      constructor; [|exact Hasc].
      constructor; [unfold ordering.notAfter; lia|].
      apply Forall_forall. intros z Hz.
      pose proof (proj1 (Forall_forall _ _) Hy z Hz) as Hyz.
      unfold ordering.notAfter in *.
      assert (Ix : In x (x :: y :: l)) by now left.
      assert (Iy : In y (x :: y :: l)) by (right; now left).
      assert (Iz : In z (x :: y :: l)) by (right; now right).
      destruct (Z.eq_dec (ordering.cmp Compare y z) 0) as [Hz0|Hz0].
      * rewrite <- (H0 y z Iy Iz Hz0). lia.
      * assert (ordering.cmp Compare x z < 0)%Z
          by (apply (Ht x y z Ix Iy Iz E); lia).
        lia.
    + apply termLess_ge in E.
      constructor.
      * apply Forall_forall. intros z Hz.
        apply (Permutation_in _ (insertSorted_perm x l)) in Hz.
        destruct Hz as [<-|Hz].
        -- unfold ordering.notAfter.
           assert (Ix : In x (x :: y :: l)) by now left.
           assert (Iy : In y (x :: y :: l)) by (right; now left).
           pose proof (H3 x y Ix Iy) as Hxy. lia.
        -- exact (proj1 (Forall_forall _ _) Hy z Hz).
      * apply IH; [|exact Hl].
        apply (totalOn_incl (x :: y :: l)); [exact Htot|].
        intros z [<-|Hz]; [now left | right; now right].
Qed.

Lemma Sorted_ascending keys :
  ordering.totalOn Compare keys ->
  ordering.ascending Compare (ast.Sorted Compare keys).
Proof.
  induction keys as [|k keys IH]; intros Htot; simpl.
  - constructor.
  - apply insertSorted_ascending.
    + apply (totalOn_incl (k :: keys)); [exact Htot|].
      intros z [<-|Hz]; [now left|].
      right. exact (Permutation_in _ (Sorted_perm keys) Hz).
    + apply IH. apply (totalOn_incl (k :: keys)); [exact Htot|].
      intros z Hz. now right.
Qed.

(** The keys have one ascending arrangement. *)
Lemma ascending_unique l1 :
  forall l2,
    ordering.totalOn Compare l1 ->
    ordering.ascending Compare l1 -> ordering.ascending Compare l2 ->
    Permutation l1 l2 -> l1 = l2.
Proof.
  unfold ordering.ascending.
  induction l1 as [|a l1 IH]; intros l2 Htot H1 H2 Hp.
  - symmetry. now apply Permutation_nil.
  - destruct l2 as [|b l2];
      [apply Permutation_sym, Permutation_nil in Hp; discriminate Hp|].
    pose proof Htot as (H3 & _ & H0).
    inversion H1 as [|a' l1' Ha Hl1]; subst.
    inversion H2 as [|b' l2' Hb Hl2]; subst.
    assert (Ia : In a (a :: l1)) by now left.
    assert (Ib : In b (a :: l1))
      by (apply (Permutation_in _ (Permutation_sym Hp)); now left).
    assert (Hab : a = b).
    { assert (Ia2 : In a (b :: l2)) by (apply (Permutation_in _ Hp); now left).
      destruct Ia2 as [->|Ia2]; [reflexivity|].
      destruct Ib as [->|Ib']; [reflexivity|].
      pose proof (proj1 (Forall_forall _ _) Hb a Ia2) as Hba.
      pose proof (proj1 (Forall_forall _ _) Ha b Ib') as Hab.
      unfold ordering.notAfter in *.
      assert (Ib : In b (a :: l1)) by now right.
      pose proof (H3 a b Ia Ib) as Hs.
      apply (H0 a b Ia Ib). lia. }
    subst b. f_equal.
    apply IH; try assumption.
    + apply (totalOn_incl (a :: l1)); [exact Htot|].
      intros z Hz. now right.
    + exact (Permutation_cons_inv Hp).
Qed.

(** The sorted keys depend on the keys only, not on their order in the
    set. *)
Lemma Sorted_order_independent keys keys' :
  ordering.totalOn Compare keys -> Permutation keys keys' ->
  ast.Sorted Compare keys' = ast.Sorted Compare keys.
Proof.
  intros Htot Hp.
  assert (Htot' : ordering.totalOn Compare keys').
  { apply (totalOn_incl keys); [exact Htot|].
    intros z Hz. exact (Permutation_in _ (Permutation_sym Hp) Hz). }
  apply ascending_unique.
  - apply (totalOn_incl keys'); [exact Htot'|].
    intros z Hz. exact (Permutation_in _ (Sorted_perm keys') Hz).
  - now apply Sorted_ascending.
  - now apply Sorted_ascending.
  - eapply perm_trans; [apply Sorted_perm|].
    eapply perm_trans; [apply Permutation_sym, Hp|].
    apply Permutation_sym, Sorted_perm.
Qed.

(** C8. A set term converts as the array term of its sorted keys.  The
    sorted keys are the keys of the set, rearranged; the conversion of the
    set is the conversion of the array of the sorted keys (node, error and
    converter calls alike); so, when every key converts, the set converts
    to what [sqlast.Array] makes of the text of that array and of the nodes
    of the keys in sorted order, and the converter is consulted in that
    order.  When [Compare] orders the keys, the sorted keys are in
    ascending order of [Compare], and they, and with them the conversion
    of the set, do not depend on the order in which the set holds its
    keys. *)
Theorem set_converts_as_sorted_array cfg keys loc loc' :
  Permutation (ast.Sorted Compare keys) keys
  /\ convertTerm cfg (ast.mkTerm (ast.Set_ keys) loc)
     = convertTerm cfg (ast.mkTerm (ast.Array (ast.Sorted Compare keys)) loc')
  /\ (forall rs,
        Forall2 (fun t r => convertTerm cfg t = (fst r, Ok (snd r)))
                (ast.Sorted Compare keys) rs ->
        convertTerm cfg (ast.mkTerm (ast.Set_ keys) loc)
        = (concat (map fst rs),
           match Array (Value_String (ast.Array (ast.Sorted Compare keys)))
                       (map snd rs) with
           | inl node => Ok node
           | inr e => Err e
           end))
  /\ (ordering.totalOn Compare keys ->
      ordering.ascending Compare (ast.Sorted Compare keys)
      /\ forall keys',
           Permutation keys keys' ->
           ast.Sorted Compare keys' = ast.Sorted Compare keys
           /\ convertTerm cfg (ast.mkTerm (ast.Set_ keys') loc')
              = convertTerm cfg (ast.mkTerm (ast.Set_ keys) loc)).
Proof.
  split; [apply Sorted_perm|]. split; [|split].
  - rewrite convertTerm_Set. apply convertTerm_loc.
  - intros rs H. rewrite convertTerm_Set, convertTerm_Array.
    rewrite (convertElems_all _ _ _ _ _ H). simpl.
    destruct (Array _ _); simpl; now rewrite app_nil_r.
  - intros Htot. split; [now apply Sorted_ascending|].
    intros keys' Hp.
    pose proof (Sorted_order_independent keys keys' Htot Hp) as Hs.
    split; [exact Hs|].
    rewrite !convertTerm_Set, Hs. apply convertTerm_loc.
Qed.

(** C6. A reference that cannot be resolved converts to an error and to no
    node: when it is empty, when the configuration has no variable
    converter, and when the converter does not support the path. *)
Theorem unresolved_reference_is_error cfg r loc :
  r = []
  \/ VariableConverter cfg = None
  \/ (exists converter, VariableConverter cfg = Some converter
                        /\ ConvertVariable converter r = None) ->
  exists l e, convertTerm cfg (ast.mkTerm (ast.Ref r) loc) = (l, Err e).
Proof.
  intros H. unfold go_rego.convertTerm. simpl.
  destruct r as [|t r]; simpl; [do 2 eexists; reflexivity|].
  destruct H as [H|[H|(converter & Hc & Hr)]]; [discriminate H| |].
  - rewrite H. do 2 eexists; reflexivity.
  - rewrite Hc, Hr. do 2 eexists; reflexivity.
Qed.

(** A node returned for a reference is the converter's, for that path. *)
Lemma reference_node_from_converter cfg r loc l n :
  convertTerm cfg (ast.mkTerm (ast.Ref r) loc) = (l, Ok n) ->
  r <> [] /\ exists converter, VariableConverter cfg = Some converter
                            /\ ConvertVariable converter r = Some n.
Proof.
  unfold go_rego.convertTerm. simpl.
  destruct r as [|t r]; simpl; [discriminate|].
  destruct (VariableConverter cfg) as [converter|]; [|discriminate].
  destruct (ConvertVariable converter (t :: r)) as [node|] eqn:E;
    [|discriminate].
  intros [= _ ->]. split; [discriminate | eauto].
Qed.

(** *** Calls *)

Lemma call_args (op : ast.Term) args :
  (if (1 <? length (op :: args))%nat then tl (op :: args) else []) = args.
Proof. destruct args; reflexivity. Qed.

Lemma convertTerms_two cfg a b la na lb nb :
  convertTerm cfg a = (la, Ok na) ->
  convertTerm cfg b = (lb, Ok nb) ->
  convertTerms cfg [a; b] 2 = ((la ++ lb)%list, Ok [na; nb]).
Proof.
  intros Ha Hb. unfold go_rego.convertTerms, convertTermsWith. simpl.
  rewrite Ha. simpl. rewrite Hb. simpl. now rewrite !app_nil_r.
Qed.

Lemma convertTerms_arity cfg terms expected :
  length terms <> expected ->
  convertTerms cfg terms expected
  = ([], Err (Errorf "expected %d terms, got %d"
                     [arg_d expected; arg_d (length terms)])).
Proof.
  intros H. unfold go_rego.convertTerms, convertTermsWith.
  apply Nat.eqb_neq in H. rewrite H. reflexivity.
Qed.

(** C3. [convertCall] dispatches on the name of the operator.  Under one of
    the names [eq], [neq], [equals], [equal], two arguments that convert
    give the Equality node of the two converted operands, in their order,
    negated exactly for [neq]; under [internal.member_2] they give the
    Membership node.  A number of arguments other than two is an error, and
    so is any other name; both are returned with no node and before any
    conversion. *)
Theorem convertCall_dispatch cfg op args :
  (forall a b la na lb nb,
      In (Term_String Value_String op) ["eq"; "neq"; "equals"; "equal"] ->
      args = [a; b] ->
      convertTerm cfg a = (la, Ok na) ->
      convertTerm cfg b = (lb, Ok nb) ->
      convertCall cfg (op :: args)
      = ((la ++ lb)%list,
         Ok (sqlast.Equality (Term_String Value_String op =? "neq") na nb)))
  /\ (forall a b la na lb nb,
        Term_String Value_String op = "internal.member_2" ->
        args = [a; b] ->
        convertTerm cfg a = (la, Ok na) ->
        convertTerm cfg b = (lb, Ok nb) ->
        convertCall cfg (op :: args)
        = ((la ++ lb)%list, Ok (sqlast.MemberOf na nb)))
  /\ (length args <> 2 ->
      exists e, convertCall cfg (op :: args) = ([], Err e))
  /\ (~ In (Term_String Value_String op)
          ["eq"; "neq"; "equals"; "equal"; "internal.member_2"] ->
      convertCall cfg (op :: args)
      = ([], Err (Errorf "operator %s not supported"
                         [arg_s (Term_String Value_String op)]))).
Proof.
  unfold go_rego.convertCall, convertCallWith.
  change (index (op :: args) 0) with (@ret ast.Term op).
  rewrite bind_ret_l, call_args.
  fold (go_rego.convertTerms Value_String Compare Array).
  remember (Term_String Value_String op) as opString eqn:EopString.
  clear EopString. repeat split.
  - intros a b la na lb nb Hop -> Ha Hb.
    rewrite (convertTerms_two _ _ _ _ _ _ _ Ha Hb).
    assert (Hsel : (opString =? "neq") || (opString =? "eq")
                   || (opString =? "equals") || (opString =? "equal") = true).
    { simpl in Hop.
      destruct Hop as [<-|[<-|[<-|[<-|[]]]]]; reflexivity. }
    assert (Hnot : (opString =? "neq") || (opString =? "notequals")
                   || (opString =? "notequal") = (opString =? "neq")).
    { simpl in Hop.
      destruct Hop as [<-|[<-|[<-|[<-|[]]]]]; reflexivity. }
    simpl. rewrite Hsel, Hnot. simpl. now rewrite !app_nil_r.
  - intros a b la na lb nb Hop -> Ha Hb.
    rewrite (convertTerms_two _ _ _ _ _ _ _ Ha Hb).
    simpl. rewrite Hop. simpl. now rewrite !app_nil_r.
  - intros Hlen. rewrite (convertTerms_arity _ _ _ Hlen). simpl.
    destruct ((opString =? "neq") || (opString =? "eq")
              || (opString =? "equals") || (opString =? "equal"));
      [eexists; reflexivity|].
    destruct (opString =? "internal.member_2"); eexists; reflexivity.
  - intros Hop. simpl in Hop.
    assert (forall s, In s ["eq"; "neq"; "equals"; "equal"; "internal.member_2"] ->
                      (opString =? s) = false) as Hs.
    { intros s Hin. apply String.eqb_neq. intros ->. apply Hop. exact Hin. }
    rewrite (Hs "neq"), (Hs "eq"), (Hs "equals"), (Hs "equal"),
      (Hs "internal.member_2") by (simpl; tauto).
    reflexivity.
Qed.

(** *** Expressions *)

(** C7. An expression that is one bare term converts to the node of the
    term when that node is of a boolean kind, and to an error when the term
    converts to a node that is not; a call expression is checked the same
    way; so an expression that converts always gives a boolean-kind node. *)
Theorem bare_term_must_be_boolean cfg e :
  (forall term l n,
      ast.Terms e = ast.Terms_Term term ->
      convertTerm cfg term = (l, Ok n) ->
      convertExpression cfg e
      = (l, if sqlast.IsBooleanNode n then Ok n
            else Err (Errorf "convert term %s is not a boolean: %w"
                             [arg_s (Term_String Value_String term); arg_w None])))
  /\ (forall call l n,
        ast.Terms e = ast.Terms_Call call ->
        convertCall cfg call = (l, Ok n) ->
        convertExpression cfg e
        = (l, if sqlast.IsBooleanNode n then Ok n
              else Err (Errorf "call %q: not a boolean expression"
                               [arg_q (Expr_String e)])))
  /\ (forall l n,
        convertExpression cfg e = (l, Ok n) -> sqlast.IsBooleanNode n = true).
Proof.
  unfold go_rego.convertExpression, ast.IsCall. repeat split.
  - intros term l n -> H. rewrite H. simpl.
    destruct (sqlast.IsBooleanNode n); simpl; now rewrite app_nil_r.
  - intros call l n -> H. rewrite bind_ret_l, H. simpl.
    destruct (sqlast.IsBooleanNode n); simpl; now rewrite app_nil_r.
  - intros l n.
    destruct (ast.Terms e) as [call|term|]; [| |discriminate].
    + rewrite bind_ret_l.
      destruct (convertCall cfg call) as [l0 [n0|e0|msg0|]]; simpl;
        try discriminate.
      destruct (sqlast.IsBooleanNode n0) eqn:E; simpl; [|discriminate].
      now intros [= _ <-].
    + destruct (convertTerm cfg term) as [l0 [n0|e0|msg0|]]; simpl;
        try discriminate.
      destruct (sqlast.IsBooleanNode n0) eqn:E; simpl; [|discriminate].
      now intros [= _ <-].
Qed.

End Props.

(** *** The properties on the test data *)
Section Examples.
Import testdata.

Local Abbreviation convertTerm := (convertTerm showValue compareValues anyArray).
Local Abbreviation convertCall := (convertCall showValue compareValues anyArray).
Local Abbreviation convertExpression :=
  (convertExpression showValue showExpr compareValues anyArray).
Local Abbreviation convertQuery :=
  (convertQuery showValue showExpr showBody compareValues anyArray).
Local Abbreviation ConvertRegoAst :=
  (ConvertRegoAst showValue showExpr showBody compareValues anyArray).

Lemma ConvertRegoAst_no_queries_witness :
  rego.Queries (rego.mkPartialQueries []) = []
  /\ ConvertRegoAst cfg (rego.mkPartialQueries [])
     = ([], Ok (sqlast.AstBoolean false)).
Proof.
  split; [reflexivity|].
  apply (ConvertRegoAst_no_queries showValue showExpr showBody compareValues
           anyArray cfg (rego.mkPartialQueries [])).
  reflexivity.
Defined.

Lemma ConvertRegoAst_empty_query_witness :
  ConvertRegoAst cfg (rego.mkPartialQueries [[exprTerm deleted]; []])
  = ([], Ok (sqlast.AstBoolean true)).
Proof.
  apply (ConvertRegoAst_empty_query showValue showExpr showBody compareValues
           anyArray cfg (rego.mkPartialQueries [[exprTerm deleted]; []])).
  - discriminate.
  - simpl. tauto.
Defined.

(** The query [lt(1, input.post.author)] does not convert; next to an empty
    query it is not looked at. *)
Lemma empty_query_short_circuits_witness :
  (exists e, convertQuery cfg [exprCall "lt" [term (ast.Number "1"); author]]
             = ([], Err e))
  /\ ConvertRegoAst cfg
       (rego.mkPartialQueries
          [[exprCall "lt" [term (ast.Number "1"); author]]; []])
     = ([], Ok (sqlast.AstBoolean true)).
Proof.
  split; [eexists; reflexivity|].
  eapply (empty_query_short_circuits showValue showExpr showBody compareValues
            anyArray cfg
            (rego.mkPartialQueries
               [[exprCall "lt" [term (ast.Number "1"); author]]; []])
            [exprCall "lt" [term (ast.Number "1"); author]]).
  - simpl. tauto.
  - simpl. tauto.
  - reflexivity.
Defined.

Lemma convertCall_dispatch_witness :
  convertCall cfg (call "neq" [bob; author])
  = ([[term (ast.Var "input"); term (ast.String "post");
       term (ast.String "author")]],
     Ok (sqlast.equality (sqlast.AstString "bob")
           (sqlast.column "sqlast.stringVar" false "author") true))
  /\ (exists e, convertCall cfg (call "eq" [bob]) = ([], Err e))
  /\ (exists e, convertCall cfg (call "notequal" [bob; author]) = ([], Err e)).
Proof.
  split; [|split].
  - apply (proj1 (convertCall_dispatch showValue compareValues anyArray cfg
                    (ref ["neq"]) [bob; author])
             bob author [] (sqlast.AstString "bob")
             [[term (ast.Var "input"); term (ast.String "post");
               term (ast.String "author")]]
             (sqlast.column "sqlast.stringVar" false "author")).
    + simpl. tauto.
    + reflexivity.
    + reflexivity.
    + reflexivity.
  - apply (proj1 (proj2 (proj2 (convertCall_dispatch showValue compareValues
                                  anyArray cfg (ref ["eq"]) [bob])))).
    simpl. lia.
  - eexists.
    apply (proj2 (proj2 (proj2 (convertCall_dispatch showValue compareValues
                                  anyArray cfg (ref ["notequal"])
                                  [bob; author])))).
    simpl. intros [H|[H|[H|[H|[H|[]]]]]]; discriminate H.
Defined.

Lemma unresolved_reference_is_error_witness :
  (exists l e, convertTerm cfg unknown = (l, Err e))
  /\ (exists l e, convertTerm noConverter author = (l, Err e))
  /\ (exists l e, convertTerm cfg (ref []) = (l, Err e)).
Proof.
  split; [|split].
  - apply (unresolved_reference_is_error showValue compareValues anyArray cfg
             [term (ast.Var "input"); term (ast.String "post");
              term (ast.String "undeclared")] None).
    right; right. exists columns. split; reflexivity.
  - apply (unresolved_reference_is_error showValue compareValues anyArray
             noConverter
             [term (ast.Var "input"); term (ast.String "post");
              term (ast.String "author")] None).
    right; left. reflexivity.
  - apply (unresolved_reference_is_error showValue compareValues anyArray cfg
             [] None).
    left. reflexivity.
Defined.

(** The string column [author] is not a predicate; the boolean column
    [deleted] is. *)
Lemma bare_term_must_be_boolean_witness :
  (exists l e, convertExpression cfg (exprTerm author) = (l, Err e))
  /\ convertExpression cfg (exprTerm deleted)
     = ([[term (ast.Var "input"); term (ast.String "post");
          term (ast.String "deleted")]],
        Ok (sqlast.column "sqlast.boolVar" true "deleted")).
Proof.
  split.
  - do 2 eexists.
    apply (proj1 (bare_term_must_be_boolean showValue showExpr compareValues
                    anyArray cfg (exprTerm author))
             author _ (sqlast.column "sqlast.stringVar" false "author"));
      reflexivity.
  - apply (proj1 (bare_term_must_be_boolean showValue showExpr compareValues
                    anyArray cfg (exprTerm deleted))
             deleted _ (sqlast.column "sqlast.boolVar" true "deleted"));
      reflexivity.
Defined.

(** The set that holds the keys ["b"], ["c"], ["a"] in that order: its
    sorted keys are ["a"], ["b"], ["c"] (not the keys reversed), it
    converts to the array of their nodes in that order, and so does the
    set that holds the same keys in the order ["c"], ["a"], ["b"]. *)
Lemma set_converts_as_sorted_array_witness :
  ordering.totalOn compareValues
    [term (ast.String "b"); term (ast.String "c"); term (ast.String "a")]
  /\ ast.Sorted compareValues
       [term (ast.String "b"); term (ast.String "c"); term (ast.String "a")]
     = [term (ast.String "a"); term (ast.String "b"); term (ast.String "c")]
  /\ ordering.ascending compareValues
       [term (ast.String "a"); term (ast.String "b"); term (ast.String "c")]
  /\ convertTerm cfg
       (term (ast.Set_ [term (ast.String "b"); term (ast.String "c");
                        term (ast.String "a")]))
     = ([], Ok (sqlast.AstArray
                  (showValue
                     (ast.Array [term (ast.String "a"); term (ast.String "b");
                                 term (ast.String "c")]))
                  [sqlast.AstString "a"; sqlast.AstString "b";
                   sqlast.AstString "c"]))
  /\ convertTerm cfg
       (term (ast.Set_ [term (ast.String "c"); term (ast.String "a");
                        term (ast.String "b")]))
     = convertTerm cfg
         (term (ast.Set_ [term (ast.String "b"); term (ast.String "c");
                          term (ast.String "a")]))
  /\ convertTerm cfg
       (term (ast.Set_ [term (ast.String "b"); term (ast.String "c");
                        term (ast.String "a")]))
     = convertTerm cfg
         (term (ast.Array [term (ast.String "a"); term (ast.String "b");
                           term (ast.String "c")])).
Proof.
  assert (Htot : ordering.totalOn compareValues
                   [term (ast.String "b"); term (ast.String "c");
                    term (ast.String "a")]).
  { split; [|split].
    - intros x y [<-|[<-|[<-|[]]]] [<-|[<-|[<-|[]]]];
        vm_compute; split; intros H; try reflexivity; discriminate H.
    - intros x y z [<-|[<-|[<-|[]]]] [<-|[<-|[<-|[]]]] [<-|[<-|[<-|[]]]];
        vm_compute; intros H1 H2; try reflexivity;
        try discriminate H1; discriminate H2.
    - intros x y [<-|[<-|[<-|[]]]] [<-|[<-|[<-|[]]]];
        vm_compute; intros H; try reflexivity; discriminate H. }
  destruct (set_converts_as_sorted_array showValue compareValues anyArray cfg
              [term (ast.String "b"); term (ast.String "c");
               term (ast.String "a")] None None)
    as (_ & Harray & Hnodes & Hordered).
  destruct (Hordered Htot) as (Hasc & Hany).
  split; [exact Htot|]. split; [reflexivity|]. split; [exact Hasc|].
  split; [|split].
  - apply (Hnodes [([], sqlast.AstString "a"); ([], sqlast.AstString "b");
                   ([], sqlast.AstString "c")]).
    repeat constructor.
  - apply (Hany [term (ast.String "c"); term (ast.String "a");
                 term (ast.String "b")]).
    apply (perm_trans (l' := [term (ast.String "c"); term (ast.String "b");
                              term (ast.String "a")])).
    + apply perm_swap.
    + apply perm_skip, perm_swap.
  - exact Harray.
Defined.

(** A call without an operator term is outside the input contract: the
    indexing of its first term panics. *)
Example convertCall_no_operator :
  convertCall cfg [] = ([], Panic "index out of range").
Proof. reflexivity. Qed.

End Examples.

End CompilerSpec.

(** * Properties of the equality dispatch *)
Module EqualitySpec.
Import sqlast.

Section Props.

Variable otherUseAs : Node -> NodeType.
Variable otherSupportsEquality : Node -> bool.
Variable otherEqualsSQLString :
  Node -> SQLGenerator -> bool -> Node -> (string + error) * SQLGenerator.
Variable otherSQLString : Node -> SQLGenerator -> string * SQLGenerator.

Local Abbreviation UseAs := (UseAs otherUseAs).
Local Abbreviation SupportsEquality := (SupportsEquality otherSupportsEquality).
Local Abbreviation SQLString :=
  (SQLString otherUseAs otherSupportsEquality otherEqualsSQLString otherSQLString).
Local Abbreviation EqualsSQLString :=
  (EqualsSQLString otherUseAs otherSupportsEquality otherEqualsSQLString
     otherSQLString).
Local Abbreviation tryEquality :=
  (tryEquality otherUseAs otherSupportsEquality otherEqualsSQLString
     otherSQLString).
Local Abbreviation resolves :=
  (resolves otherUseAs otherSupportsEquality otherEqualsSQLString otherSQLString).
Local Abbreviation declines :=
  (declines otherUseAs otherSupportsEquality otherEqualsSQLString otherSQLString).
Local Abbreviation renderedText :=
  (renderedText otherUseAs otherSupportsEquality otherEqualsSQLString
     otherSQLString).

(** [equality.SQLString], as two attempts. *)
Lemma SQLString_equality l r nt cfg :
  SQLString (equality l r nt) cfg
  = match tryEquality l cfg nt r with
    | (Some v, cfg1) => (v, cfg1)
    | (None, cfg1) =>
        match tryEquality r cfg1 nt l with
        | (Some v, cfg2) => (v, cfg2)
        | (None, cfg2) =>
            ("EqualityError", AddError cfg2 (unsupportedEquality l nt r))
        end
    end.
Proof. reflexivity. Qed.

Lemma tryEquality_resolves a cfg nt b v cfg' :
  resolves a cfg nt b v cfg' <-> tryEquality a cfg nt b = (Some v, cfg').
Proof.
  unfold sqlast.resolves, sqlast.tryEquality, tryEquality_.
  fold EqualsSQLString.
  destruct (SupportsEquality a).
  - destruct (EqualsSQLString a cfg nt b) as [[s|e] c]; split.
    + now intros [_ [= -> ->]].
    + now intros [= -> ->].
    + intros [_ H]; discriminate H.
    + discriminate.
  - split; [intros [H _]|intros H]; discriminate H.
Qed.

Lemma tryEquality_declines a cfg nt b cfg' :
  declines a cfg nt b cfg' <-> tryEquality a cfg nt b = (None, cfg').
Proof.
  unfold sqlast.declines, sqlast.tryEquality, tryEquality_.
  fold EqualsSQLString.
  destruct (SupportsEquality a).
  - destruct (EqualsSQLString a cfg nt b) as [[s|e] c]; split.
    + intros [[H _]|[_ [e H]]]; discriminate H.
    + discriminate.
    + intros [[H _]|[_ [e' [= _ ->]]]]; [discriminate H | reflexivity].
    + intros [= ->]. right. eauto.
  - split.
    + intros [[_ ->]|[H _]]; [reflexivity | discriminate H].
    + intros [= ->]. now left.
Qed.

(** Every attempt either resolves or declines. *)
Lemma resolves_or_declines a cfg nt b :
  (exists v cfg', resolves a cfg nt b v cfg')
  \/ (exists cfg', declines a cfg nt b cfg').
Proof.
  destruct (tryEquality a cfg nt b) as [[v|] cfg'] eqn:E.
  - left. exists v, cfg'. now apply tryEquality_resolves.
  - right. exists cfg'. now apply tryEquality_declines.
Qed.

Lemma SQLString_left a b nt cfg v cfg1 :
  resolves a cfg nt b v cfg1 -> SQLString (equality a b nt) cfg = (v, cfg1).
Proof.
  intros H. apply tryEquality_resolves in H.
  now rewrite SQLString_equality, H.
Qed.

(** C4. Rendering an Equality node always returns a text and a context.
    The left operand is asked first to render itself compared to the right
    one; only when it declines is the right operand asked, with the
    operands swapped; when both decline, the text is the sentinel
    [EqualityError] and the context gets one more error, after those it
    held, with the types of the two operands and the operator.  One of the
    three cases always applies. *)
Theorem equality_SQLString_resolution l r nt cfg :
  (forall v cfg1,
      resolves l cfg nt r v cfg1 ->
      SQLString (equality l r nt) cfg = (v, cfg1))
  /\ (forall cfg1 v cfg2,
        declines l cfg nt r cfg1 ->
        resolves r cfg1 nt l v cfg2 ->
        SQLString (equality l r nt) cfg = (v, cfg2))
  /\ (forall cfg1 cfg2,
        declines l cfg nt r cfg1 ->
        declines r cfg1 nt l cfg2 ->
        SQLString (equality l r nt) cfg
        = ("EqualityError",
           mkSQLGenerator
             (errors cfg2
              ++ [Errorf "unsupported equality: %T %s %T"
                         [arg_T (typeName (typeOf l));
                          arg_s (if nt then "!=" else "=");
                          arg_T (typeName (typeOf r))]])%list))
  /\ ((exists v cfg1, resolves l cfg nt r v cfg1)
      \/ (exists cfg1,
             declines l cfg nt r cfg1
             /\ ((exists v cfg2, resolves r cfg1 nt l v cfg2)
                 \/ (exists cfg2, declines r cfg1 nt l cfg2)))).
Proof.
  repeat split.
  - intros v cfg1. apply SQLString_left.
  - intros cfg1 v cfg2 Hl Hr.
    apply tryEquality_declines in Hl. apply tryEquality_resolves in Hr.
    now rewrite SQLString_equality, Hl, Hr.
  - intros cfg1 cfg2 Hl Hr.
    apply tryEquality_declines in Hl. apply tryEquality_declines in Hr.
    now rewrite SQLString_equality, Hl, Hr.
  - destruct (resolves_or_declines l cfg nt r) as [H|[cfg1 H]]; [now left|].
    right. exists cfg1. split; [exact H|].
    apply resolves_or_declines.
Qed.

(** C10. The left operand has precedence: when it renders itself compared
    to the right operand, the Equality node renders to exactly that text
    and leaves exactly that context, whether or not the right operand
    could render the comparison too; the node with the operands swapped
    then renders to the right operand's text.  The form is decided by the
    order of the operands alone. *)
Theorem left_operand_precedence l r nt cfg v cfg1 :
  resolves l cfg nt r v cfg1 ->
  SQLString (equality l r nt) cfg = (v, cfg1)
  /\ forall v' cfg1',
       resolves r cfg nt l v' cfg1' ->
       SQLString (equality l r nt) cfg = (v, cfg1)
       /\ SQLString (equality r l nt) cfg = (v', cfg1').
Proof.
  intros H. split; [now apply SQLString_left|].
  intros v' cfg1' H'. split; now apply SQLString_left.
Qed.

(** *** Operand order *)

Lemma append_assoc (s1 s2 s3 : string) : (s1 ++ s2) ++ s3 = s1 ++ (s2 ++ s3).
Proof.
  induction s1 as [|c s1 IH]; simpl; [reflexivity | now rewrite IH].
Qed.

Section Purity.

(** The rendering of the other variants reads nothing from the context
    (section 3: a rendering only appends to the error list). *)
Hypothesis otherSQLString_pure :
  forall n cfg cfg', fst (otherSQLString n cfg) = fst (otherSQLString n cfg').
Hypothesis otherEqualsSQLString_pure :
  forall n nt o cfg cfg',
    fst (otherEqualsSQLString n cfg nt o) = fst (otherEqualsSQLString n cfg' nt o).

Lemma basicSQLEquality_text render cfg nt a b :
  fst (basicSQLEquality render cfg nt a b)
  = fst (render a cfg) ++ " " ++ equalsOp nt ++ " "
    ++ fst (render b (snd (render a cfg))).
Proof.
  unfold basicSQLEquality.
  destruct (render a cfg) as [sa cfg1]. simpl.
  now destruct (render b cfg1) as [sb cfg2].
Qed.

Lemma EqualsSQLString_pure_ render a b :
  (forall cfg cfg', fst (render a cfg) = fst (render a cfg')) ->
  (forall cfg cfg', fst (render b cfg) = fst (render b cfg')) ->
  forall nt cfg cfg',
    fst (EqualsSQLString_ otherUseAs otherEqualsSQLString render a cfg nt b)
    = fst (EqualsSQLString_ otherUseAs otherEqualsSQLString render a cfg' nt b).
Proof.
  intros Ha Hb nt cfg cfg'.
  destruct a; simpl; try apply otherEqualsSQLString_pure.
  - unfold AstNumber_EqualsSQLString.
    destruct (UseAs b); try reflexivity.
    unfold basicSQLEquality.
    specialize (Ha cfg cfg').
    destruct (render _ cfg) as [sa c1], (render _ cfg') as [sa' c1'].
    simpl in Ha. subst sa'. specialize (Hb c1 c1').
    destruct (render b c1) as [sb c2], (render b c1') as [sb' c2'].
    simpl in Hb. now subst sb'.
  - unfold equality_EqualsSQLString.
    specialize (Ha cfg cfg').
    destruct (render _ cfg) as [sa c1], (render _ cfg') as [sa' c1'].
    simpl in Ha. subst sa'. specialize (Hb c1 c1').
    destruct (render b c1) as [sb c2], (render b c1') as [sb' c2'].
    simpl in Hb. subst sb'.
    destruct (UseAs b) as [| | | | | | |ty [|]]; simpl; reflexivity.
Qed.

Lemma tryEquality_pure_ render a b :
  (forall cfg cfg', fst (render a cfg) = fst (render a cfg')) ->
  (forall cfg cfg', fst (render b cfg) = fst (render b cfg')) ->
  forall nt cfg cfg',
    fst (tryEquality_ otherUseAs otherSupportsEquality otherEqualsSQLString
           render a cfg nt b)
    = fst (tryEquality_ otherUseAs otherSupportsEquality otherEqualsSQLString
             render a cfg' nt b).
Proof.
  intros Ha Hb nt cfg cfg'. unfold tryEquality_.
  destruct (SupportsEquality a); [|reflexivity].
  pose proof (EqualsSQLString_pure_ render a b Ha Hb nt cfg cfg') as H.
  destruct (EqualsSQLString_ _ _ render a cfg nt b) as [[s|e] c],
           (EqualsSQLString_ _ _ render a cfg' nt b) as [[s'|e'] c'];
    simpl in H; try discriminate H; [now injection H as -> | reflexivity].
Qed.

(** The text of a node does not depend on the context it is rendered in. *)
Lemma SQLString_pure n :
  forall cfg cfg', fst (SQLString n cfg) = fst (SQLString n cfg').
Proof.
  induction n as [b|s|src v|src vs|l IHl r IHr nt|x IHx y IHy|src op ts|ty b f];
    intros cfg cfg'; try apply otherSQLString_pure; [reflexivity|].
  rewrite !SQLString_equality. unfold sqlast.tryEquality.
  pose proof (tryEquality_pure_ SQLString l r IHl IHr nt cfg cfg') as H1.
  destruct (tryEquality_ _ _ _ SQLString l cfg nt r) as [[v|] c1],
           (tryEquality_ _ _ _ SQLString l cfg' nt r) as [[v'|] c1'];
    simpl in H1; try discriminate H1; [now injection H1 as ->|].
  pose proof (tryEquality_pure_ SQLString r l IHr IHl nt c1 c1') as H2.
  destruct (tryEquality_ _ _ _ SQLString r c1 nt l) as [[v|] c2],
           (tryEquality_ _ _ _ SQLString r c1' nt l) as [[v'|] c2'];
    simpl in H2; try discriminate H2; [now injection H2 as -> | reflexivity].
Qed.

Lemma SQLString_text n cfg : fst (SQLString n cfg) = renderedText n.
Proof. apply SQLString_pure. Qed.

End Purity.








(** The text of a tree of numbers and comparisons does not depend on the
    context it is rendered in, whatever the other variants do. *)
Lemma sourceOnly_text n :
  kinds.sourceOnly n = true ->
  forall cfg cfg', fst (SQLString n cfg) = fst (SQLString n cfg').
Proof.
  induction n as [b|s|src v|src vs|l IHl r IHr nt|x IHx y IHy|src op ts|ty b f];
    intros Hs cfg cfg'; try discriminate Hs; [reflexivity|].
  simpl in Hs. apply andb_prop in Hs. destruct Hs as [Hl Hr].
  specialize (IHl Hl). specialize (IHr Hr).
  destruct l as [| |sl vl| |ll rl nl| | |]; try discriminate Hl;
    destruct r as [| |sr vr| |lr rr nr| | |]; try discriminate Hr;
    try reflexivity.
  rewrite !SQLString_equality.
  unfold sqlast.tryEquality, tryEquality_.
  cbn [sqlast.SupportsEquality EqualsSQLString_].
  unfold equality_EqualsSQLString.
  cbn [sqlast.UseAs implementsBooleanNode].
  specialize (IHl cfg cfg').
  destruct (SQLString (equality ll rl nl) cfg) as [se c1],
           (SQLString (equality ll rl nl) cfg') as [se' c1'].
  simpl in IHl. subst se'. specialize (IHr c1 c1').
  destruct (SQLString (equality lr rr nr) c1) as [so c2],
           (SQLString (equality lr rr nr) c1') as [so' c2'].
  simpl in IHr. now subst so'.
Qed.


End Props.

(** *** The properties on the test data *)
Section Examples.
Import testdata.

Local Abbreviation SQLString :=
  (SQLString leafUseAs leafSupportsEquality leafEqualsSQLString leafSQLString).
Local Abbreviation resolves :=
  (resolves leafUseAs leafSupportsEquality leafEqualsSQLString leafSQLString).
Local Abbreviation declines :=
  (declines leafUseAs leafSupportsEquality leafEqualsSQLString leafSQLString).

(** [1 != author]: the number does not compare itself to a string, nor the
    string column to a number. *)
Lemma equality_SQLString_resolution_witness :
  SQLString (equality one authorColumn true) NewSQLGenerator
  = ("EqualityError",
     mkSQLGenerator
       [Errorf "unsupported equality: %T %s %T"
               [arg_T "sqlast.AstNumber"; arg_s "!=";
                arg_T "sqlast.stringVar"]])
  /\ SQLString (equality authorColumn (AstString "bob") false) NewSQLGenerator
     = ("author = 'bob'", NewSQLGenerator)
  /\ SQLString (equality (AstBoolean true) (equality one two false) false)
       NewSQLGenerator
     = ("(1 = 2) = true", NewSQLGenerator).
Proof.
  split; [|split].
  - apply (proj1 (proj2 (proj2
             (equality_SQLString_resolution leafUseAs leafSupportsEquality
                leafEqualsSQLString leafSQLString one authorColumn true
                NewSQLGenerator)))
             NewSQLGenerator NewSQLGenerator).
    + right. split; [reflexivity|]. eexists. reflexivity.
    + right. split; [reflexivity|]. eexists. reflexivity.
  - apply (proj1
             (equality_SQLString_resolution leafUseAs leafSupportsEquality
                leafEqualsSQLString leafSQLString authorColumn
                (AstString "bob") false NewSQLGenerator)).
    split; reflexivity.
  - apply (proj1 (proj2
             (equality_SQLString_resolution leafUseAs leafSupportsEquality
                leafEqualsSQLString leafSQLString (AstBoolean true)
                (equality one two false) false NewSQLGenerator))
             NewSQLGenerator).
    + left. split; reflexivity.
    + split; reflexivity.
Defined.

(** [1 = 2] and [2 = 1]: both operands can render the comparison, and the
    left one does.  [1 = age] and [age = 1]: the comparison method of the
    column leaves a trace in the context when it is called, and the
    rendering of [1 = age] leaves none. *)
Lemma left_operand_precedence_witness :
  (resolves one NewSQLGenerator false two "1 = 2" NewSQLGenerator
   /\ resolves two NewSQLGenerator false one "2 = 1" NewSQLGenerator
   /\ SQLString (equality one two false) NewSQLGenerator
      = ("1 = 2", NewSQLGenerator)
   /\ SQLString (equality two one false) NewSQLGenerator
      = ("2 = 1", NewSQLGenerator))
  /\ sqlast.SQLString tracedUseAs tracedSupportsEquality tracedEqualsSQLString
       leafSQLString (equality one ageColumn false) NewSQLGenerator
     = ("1 = age", NewSQLGenerator)
  /\ sqlast.SQLString tracedUseAs tracedSupportsEquality tracedEqualsSQLString
       leafSQLString (equality ageColumn one false) NewSQLGenerator
     = ("age = 1",
        mkSQLGenerator [Errorf "EqualsSQLString called on %s" [arg_s "age"]]).
Proof.
  assert (H12 : resolves one NewSQLGenerator false two "1 = 2" NewSQLGenerator)
    by (split; reflexivity).
  assert (H21 : resolves two NewSQLGenerator false one "2 = 1" NewSQLGenerator)
    by (split; reflexivity).
  split; [|split].
  - split; [exact H12|]. split; [exact H21|].
    exact (proj2 (left_operand_precedence leafUseAs leafSupportsEquality
                    leafEqualsSQLString leafSQLString one two false
                    NewSQLGenerator "1 = 2" NewSQLGenerator H12)
             "2 = 1" NewSQLGenerator H21).
  - apply (left_operand_precedence tracedUseAs tracedSupportsEquality
             tracedEqualsSQLString leafSQLString one ageColumn false
             NewSQLGenerator "1 = age" NewSQLGenerator).
    split; reflexivity.
  - apply (left_operand_precedence tracedUseAs tracedSupportsEquality
             tracedEqualsSQLString leafSQLString ageColumn one false
             NewSQLGenerator "age = 1"
             (mkSQLGenerator
                [Errorf "EqualsSQLString called on %s" [arg_s "age"]])).
    split; reflexivity.
Defined.



Example equality_order_texts :
  fst (SQLString (Equality true (Equality false one two)
                                (Equality false two one)) NewSQLGenerator)
  = "(1 = 2) != (2 = 1)"
  /\ fst (SQLString (Equality true (Equality false two one)
                                   (Equality false one two)) NewSQLGenerator)
     = "(2 = 1) != (1 = 2)".
Proof. split; reflexivity. Qed.

End Examples.

End EqualitySpec.

(** * Further properties of the compiler *)
Module CompilerExtra.
Import go_rego.

Section Props.

Variable Value_String : ast.Value -> string.
Variable Expr_String : ast.Expr -> string.
Variable Body_String : ast.Body -> string.
Variable Compare : ast.Value -> ast.Value -> Z.
Variable Array : sqlast.RegoSource -> list sqlast.Node -> sqlast.Node + error.

Local Abbreviation convertTermFuel := (convertTermFuel Value_String Compare Array).
Local Abbreviation convertTerm := (convertTerm Value_String Compare Array).
Local Abbreviation convertCall := (convertCall Value_String Compare Array).
Local Abbreviation convertTerms := (convertTerms Value_String Compare Array).
Local Abbreviation convertExpression :=
  (convertExpression Value_String Expr_String Compare Array).
Local Abbreviation convertExpressions :=
  (convertExpressions Value_String Expr_String Compare Array).
Local Abbreviation convertQuery :=
  (convertQuery Value_String Expr_String Body_String Compare Array).
Local Abbreviation convertQueries :=
  (convertQueries Value_String Expr_String Body_String Compare Array).
Local Abbreviation ConvertRegoAst :=
  (ConvertRegoAst Value_String Expr_String Body_String Compare Array).

(** *** The loops

    In each lemma [rs] lists, for the items that convert, the converter
    calls and the node of each. *)

Lemma convertTermsLoop_all f cfg terms rs :
  Forall2 (fun t r => f cfg t = (fst r, Ok (snd r))) terms rs ->
  forall acc,
    convertTermsLoop f cfg terms acc
    = (concat (map fst rs), Ok (acc ++ map snd rs)%list).
Proof.
  induction 1 as [|t r terms rs Ht _ IH]; intros acc; simpl.
  - now rewrite app_nil_r.
  - rewrite Ht. simpl. rewrite IH. now rewrite <- app_assoc.
Qed.

Lemma convertTermsLoop_inv f cfg terms :
  forall acc l nodes,
    convertTermsLoop f cfg terms acc = (l, Ok nodes) ->
    exists rs,
      Forall2 (fun t r => f cfg t = (fst r, Ok (snd r))) terms rs
      /\ l = concat (map fst rs) /\ nodes = (acc ++ map snd rs)%list.
Proof.
  induction terms as [|t terms IH]; intros acc l nodes H; simpl in H.
  - injection H as <- <-. exists []. simpl. rewrite app_nil_r. auto.
  - destruct (f cfg t) as [lt [nt|et|mt|]] eqn:Et; simpl in H;
      try discriminate H.
    destruct (convertTermsLoop f cfg terms (acc ++ [nt])) as [l' o'] eqn:E'.
    injection H as <- ->.
    destruct (IH _ _ _ E') as (rs & Hrs & -> & ->).
    exists ((lt, nt) :: rs). simpl. rewrite <- app_assoc. auto.
Qed.

Lemma convertElems_first_failure f cfg v pre rs bad post l e :
  Forall2 (fun t r => f cfg t = (fst r, Ok (snd r))) pre rs ->
  f cfg bad = (l, Err e) ->
  forall i acc,
    convertElems Value_String f cfg v i (pre ++ bad :: post) acc
    = ((concat (map fst rs) ++ l)%list,
       Err (Errorf "array element %d in %q: %w"
                   [arg_d (i + length pre); arg_q (Value_String v);
                    arg_w (Some e)])).
Proof.
  intros Hpre Hbad.
  induction Hpre as [|t r pre rs Ht _ IH]; intros i acc; simpl.
  - rewrite Hbad. simpl. now rewrite Nat.add_0_r.
  - rewrite Ht. simpl. rewrite IH. rewrite <- app_assoc.
    now rewrite Nat.add_succ_comm.
Qed.

Lemma convertExpressions_all cfg q rs :
  Forall2 (fun e r => convertExpression cfg e = (fst r, Ok (snd r))) q rs ->
  forall acc,
    convertExpressions cfg q acc
    = (concat (map fst rs), Ok (acc ++ map snd rs)%list).
Proof.
  induction 1 as [|e r q rs He _ IH]; intros acc; simpl.
  - now rewrite app_nil_r.
  - rewrite He. simpl. rewrite IH. now rewrite <- app_assoc.
Qed.

Lemma convertExpressions_inv cfg q :
  forall acc l nodes,
    convertExpressions cfg q acc = (l, Ok nodes) ->
    exists rs,
      Forall2 (fun e r => convertExpression cfg e = (fst r, Ok (snd r))) q rs
      /\ l = concat (map fst rs) /\ nodes = (acc ++ map snd rs)%list.
Proof.
  induction q as [|e q IH]; intros acc l nodes H; simpl in H.
  - injection H as <- <-. exists []. simpl. rewrite app_nil_r. auto.
  - destruct (convertExpression cfg e) as [le [ne|ee|me|]] eqn:Ee; simpl in H;
      try discriminate H.
    destruct (convertExpressions cfg q (acc ++ [ne])) as [l' o'] eqn:E'.
    injection H as <- ->.
    destruct (IH _ _ _ E') as (rs & Hrs & -> & ->).
    exists ((le, ne) :: rs). simpl. rewrite <- app_assoc. auto.
Qed.

Lemma convertExpressions_first_failure cfg pre rs bad post l e :
  Forall2 (fun x r => convertExpression cfg x = (fst r, Ok (snd r))) pre rs ->
  convertExpression cfg bad = (l, Err e) ->
  forall acc,
    convertExpressions cfg (pre ++ bad :: post) acc
    = ((concat (map fst rs) ++ l)%list,
       Err (Errorf "expression %s: %w"
                   [arg_s (Expr_String bad); arg_w (Some e)])).
Proof.
  intros Hpre Hbad.
  induction Hpre as [|x r pre rs Hx _ IH]; intros acc; simpl.
  - rewrite Hbad. reflexivity.
  - rewrite Hx. simpl. rewrite IH. now rewrite <- app_assoc.
Qed.

(** *** Terms and arrays *)

(** X6. [convertTerms] succeeds exactly when the number of terms is the
    expected one and every term converts; its nodes are then those of the
    terms, one for each and in their order, and the converter calls are
    those of the terms, in their order. *)
Theorem convertTerms_exact cfg terms expected l nodes :
  convertTerms cfg terms expected = (l, Ok nodes)
  <-> length terms = expected
      /\ exists rs,
          Forall2 (fun t r => convertTerm cfg t = (fst r, Ok (snd r))) terms rs
          /\ l = concat (map fst rs) /\ nodes = map snd rs.
Proof.
  unfold go_rego.convertTerms, convertTermsWith. split.
  - destruct (Nat.eqb_spec (length terms) expected) as [E|E]; simpl;
      [|discriminate].
    intros H. split; [exact E|]. now apply convertTermsLoop_inv in H.
  - intros [E (rs & Hrs & -> & ->)].
    apply Nat.eqb_eq in E. rewrite E. simpl.
    now rewrite (convertTermsLoop_all _ _ _ _ Hrs).
Qed.

(** X9. When the elements of an array term convert up to one that does
    not, the array does not convert: the error carries the index of that
    element, the text of the array and the element's error, and no element
    after it is converted. *)
Theorem array_first_failure cfg pre rs bad post loc l e :
  Forall2 (fun t r => convertTerm cfg t = (fst r, Ok (snd r))) pre rs ->
  convertTerm cfg bad = (l, Err e) ->
  convertTerm cfg (ast.mkTerm (ast.Array (pre ++ bad :: post)) loc)
  = ((concat (map fst rs) ++ l)%list,
     Err (Errorf "array element %d in %q: %w"
                 [arg_d (length pre);
                  arg_q (Value_String (ast.Array (pre ++ bad :: post)));
                  arg_w (Some e)])).
Proof.
  intros Hpre Hbad. rewrite CompilerSpec.convertTerm_Array.
  now rewrite (convertElems_first_failure _ _ _ _ _ _ post _ _ Hpre Hbad).
Qed.

(** X8. When every element of an array term converts, the array converts
    to what [sqlast.Array] makes of the text of the array and of the nodes
    of the elements, in their order; the converter calls are those of the
    elements, in their order. *)
Theorem array_elements_in_order cfg elems rs loc :
  Forall2 (fun t r => convertTerm cfg t = (fst r, Ok (snd r))) elems rs ->
  convertTerm cfg (ast.mkTerm (ast.Array elems) loc)
  = (concat (map fst rs),
     match Array (Value_String (ast.Array elems)) (map snd rs) with
     | inl node => Ok node
     | inr e => Err e
     end).
Proof.
  intros H. rewrite CompilerSpec.convertTerm_Array.
  rewrite (CompilerSpec.convertElems_all _ _ _ _ _ _ H). simpl.
  destruct (Array _ _); simpl; now rewrite app_nil_r.
Qed.

(** *** Queries *)

(** X3. A query converts exactly when each of its expressions does, and
    then to the conjunction of their nodes, in the order of the
    expressions, annotated with the text of the query. *)
Theorem convertQuery_conjunction cfg q l n :
  convertQuery cfg q = (l, Ok n)
  <-> exists rs,
      Forall2 (fun e r => convertExpression cfg e = (fst r, Ok (snd r))) q rs
      /\ l = concat (map fst rs)
      /\ n = sqlast.And (Body_String q) (map snd rs).
Proof.
  unfold go_rego.convertQuery. split.
  - destruct (convertExpressions cfg q []) as [l0 [nodes| | |]] eqn:E;
      simpl; try discriminate.
    intros [= <- <-].
    destruct (convertExpressions_inv _ _ _ _ _ E) as (rs & Hrs & -> & ->).
    exists rs. now rewrite app_nil_r.
  - intros (rs & Hrs & -> & ->).
    rewrite (convertExpressions_all _ _ _ Hrs). simpl. now rewrite app_nil_r.
Qed.

(** X4. The first expression of a query that does not convert ends the
    conversion of the query: the error names that expression and wraps its
    error, and the expressions after it are not converted. *)
Theorem convertQuery_first_failure cfg pre rs bad post l e :
  Forall2 (fun x r => convertExpression cfg x = (fst r, Ok (snd r))) pre rs ->
  convertExpression cfg bad = (l, Err e) ->
  convertQuery cfg (pre ++ bad :: post)%list
  = ((concat (map fst rs) ++ l)%list,
     Err (Errorf "expression %s: %w"
                 [arg_s (Expr_String bad); arg_w (Some e)])).
Proof.
  intros Hpre Hbad. unfold go_rego.convertQuery.
  now rewrite (convertExpressions_first_failure _ _ _ _ post _ _ Hpre Hbad).
Qed.

Lemma convertQuery_conjunction_inv cfg q l n :
  convertQuery cfg q = (l, Ok n) ->
  Forall (fun e => exists le ne, convertExpression cfg e = (le, Ok ne)) q.
Proof.
  unfold go_rego.convertQuery.
  destruct (convertExpressions cfg q []) as [l0 [nodes| | |]] eqn:E;
    simpl; try discriminate.
  intros _. apply convertExpressions_inv in E.
  destruct E as (rs & Hrs & _ & _).
  induction Hrs as [|e r q rs He _ IH]; constructor; eauto.
Qed.

(** A query that converts gives a conjunction, which is a boolean node. *)
Lemma convertQuery_Ok_boolean cfg q l n :
  convertQuery cfg q = (l, Ok n) -> sqlast.IsBooleanNode n = true.
Proof.
  unfold go_rego.convertQuery.
  destruct (convertExpressions cfg q []) as [l0 [nodes| | |]]; simpl;
    try discriminate.
  now intros [= _ <-].
Qed.

(** *** The top level *)

Lemma concat_append_head sep a b ss :
  String.concat sep ((a ++ b) :: ss) = a ++ String.concat sep (b :: ss).
Proof.
  destruct ss as [|s ss]; simpl; [reflexivity|].
  now rewrite EqualitySpec.append_assoc.
Qed.

(** The text that the builder of [ConvertRegoAst] accumulates. *)
Lemma builder_concat (queries : list ast.Body) :
  forall q0,
    fold_left (fun b q => (b ++ newline) ++ Body_String q) queries
              (Body_String q0)
    = String.concat newline (map Body_String (q0 :: queries)).
Proof.
  assert (G : forall s0,
             fold_left (fun b q => (b ++ newline) ++ Body_String q) queries s0
             = String.concat newline (s0 :: map Body_String queries)).
  { induction queries as [|q queries IH]; intros s0; simpl; [reflexivity|].
    rewrite IH, concat_append_head, EqualitySpec.append_assoc. reflexivity. }
  intros q0. apply G.
Qed.

Lemma convertQueries_all cfg rest rs :
  Forall2 (fun q r => convertQuery cfg q = (fst r, Ok (snd r))) rest rs ->
  forall i builder acc,
    convertQueries cfg (S i) rest builder acc
    = (concat (map fst rs),
       Ok (sqlast.Or
             (fold_left (fun b q => (b ++ newline) ++ Body_String q) rest builder)
             (acc ++ map snd rs)%list)).
Proof.
  induction 1 as [|q r rest rs Hq _ IH]; intros i builder acc; simpl.
  - now rewrite app_nil_r.
  - rewrite Hq. simpl.
    rewrite (convertQuery_Ok_boolean _ _ _ _ Hq). simpl.
    rewrite IH. now rewrite <- app_assoc.
Qed.

Lemma convertQueries_first_failure cfg pre rs bad post l e :
  Forall2 (fun q r => convertQuery cfg q = (fst r, Ok (snd r))) pre rs ->
  convertQuery cfg bad = (l, Err e) ->
  forall i builder acc,
    convertQueries cfg i (pre ++ bad :: post)%list builder acc
    = ((concat (map fst rs) ++ l)%list,
       Err (Errorf "query %s: %w" [arg_s (Body_String bad); arg_w (Some e)])).
Proof.
  intros Hpre Hbad.
  induction Hpre as [|q r pre rs Hq _ IH]; intros i builder acc; simpl.
  - rewrite Hbad. reflexivity.
  - rewrite Hq. simpl.
    rewrite (convertQuery_Ok_boolean _ _ _ _ Hq). simpl.
    rewrite IH. now rewrite <- app_assoc.
Qed.

Lemma anyEmptyQuery_false queries :
  ~ In [] queries -> anyEmptyQuery queries = false.
Proof.
  intros H. destruct (anyEmptyQuery queries) eqn:E; [|reflexivity].
  apply CompilerSpec.anyEmptyQuery_In in E. now elim H.
Qed.

(** X1. When the set has queries, none of them empty, and every query
    converts, [ConvertRegoAst] returns the disjunction of the nodes of the
    queries, in the order of the queries; its annotation is the texts of
    the queries, one per line, and the converter calls are those of the
    queries, in their order. *)
Theorem ConvertRegoAst_disjunction cfg partial rs :
  rego.Queries partial <> [] ->
  ~ In [] (rego.Queries partial) ->
  Forall2 (fun q r => convertQuery cfg q = (fst r, Ok (snd r)))
          (rego.Queries partial) rs ->
  ConvertRegoAst cfg partial
  = (concat (map fst rs),
     Ok (sqlast.Or
           (String.concat newline (map Body_String (rego.Queries partial)))
           (map snd rs))).
Proof.
  intros Hne Hempty Hrs. unfold go_rego.ConvertRegoAst.
  rewrite (anyEmptyQuery_false _ Hempty).
  destruct (rego.Queries partial) as [|q0 queries]; [now elim Hne|].
  change (length (q0 :: queries) =? 0)%nat with false. cbv iota.
  inversion Hrs as [|? r0 ? rs' Hq0 Hrest]; subst. simpl.
  rewrite Hq0. simpl.
  rewrite (convertQuery_Ok_boolean _ _ _ _ Hq0). simpl.
  rewrite (convertQueries_all _ _ _ Hrest).
  now rewrite builder_concat.
Qed.

(** X2. The first query that does not convert ends the compilation: the
    error names that query and wraps its error, the queries after it are
    not converted, and the converter calls are those made up to the
    failure. *)
Theorem ConvertRegoAst_first_failure cfg partial pre rs bad post l e :
  rego.Queries partial = (pre ++ bad :: post)%list ->
  ~ In [] (rego.Queries partial) ->
  Forall2 (fun q r => convertQuery cfg q = (fst r, Ok (snd r))) pre rs ->
  convertQuery cfg bad = (l, Err e) ->
  ConvertRegoAst cfg partial
  = ((concat (map fst rs) ++ l)%list,
     Err (Errorf "query %s: %w" [arg_s (Body_String bad); arg_w (Some e)])).
Proof.
  intros Hqs Hempty Hpre Hbad. unfold go_rego.ConvertRegoAst.
  rewrite (anyEmptyQuery_false _ Hempty). rewrite Hqs.
  replace (length (pre ++ bad :: post)%list =? 0)%nat with false
    by (symmetry; apply Nat.eqb_neq; rewrite length_app; simpl; lia).
  now apply convertQueries_first_failure.
Qed.

(** *** The cause of an error *)

Lemma convertExpressions_Err_inv cfg q :
  forall acc l e,
    convertExpressions cfg q acc = (l, Err e) ->
    exists x l' cause,
      In x q /\ convertExpression cfg x = (l', Err cause)
      /\ e = Errorf "expression %s: %w"
                    [arg_s (Expr_String x); arg_w (Some cause)].
Proof.
  induction q as [|x q IH]; intros acc l e H; simpl in H; [discriminate H|].
  destruct (convertExpression cfg x) as [lx [nx|ex|mx|]] eqn:Ex; simpl in H;
    try discriminate H.
  - destruct (convertExpressions cfg q (acc ++ [nx])) as [l' o'] eqn:E'.
    injection H as _ ->.
    destruct (IH _ _ _ E') as (y & ly & cause & Hy & Hc & He).
    exists y, ly, cause. split; [now right | auto].
  - injection H as _ <-. exists x, lx, ex. split; [now left | auto].
Qed.

Lemma convertQueries_Err_inv cfg rest :
  forall i builder acc l e,
    convertQueries cfg i rest builder acc = (l, Err e) ->
    exists q l' cause,
      In q rest /\ convertQuery cfg q = (l', Err cause)
      /\ e = Errorf "query %s: %w" [arg_s (Body_String q); arg_w (Some cause)].
Proof.
  induction rest as [|q rest IH]; intros i builder acc l e H; simpl in H;
    [discriminate H|].
  destruct (convertQuery cfg q) as [lq [nq|eq|mq|]] eqn:Eq; simpl in H;
    try discriminate H.
  - rewrite (convertQuery_Ok_boolean _ _ _ _ Eq) in H. simpl in H.
    destruct (convertQueries cfg (S i) rest _ _) as [l' o'] eqn:E'.
    injection H as _ ->.
    destruct (IH _ _ _ _ _ E') as (q' & lq' & cause & Hq' & Hc & He).
    exists q', lq', cause. split; [now right | auto].
  - injection H as _ <-. exists q, lq, eq. split; [now left | auto].
Qed.

(** X5. Every error of [ConvertRegoAst] tells where the compilation
    stopped: it names a query of the set and wraps an error that names an
    expression of that query, which wraps the error of the conversion of
    that expression. *)
Theorem ConvertRegoAst_error_chain cfg partial l e :
  ConvertRegoAst cfg partial = (l, Err e) ->
  exists q x cause,
    In q (rego.Queries partial) /\ In x q
    /\ (exists l', convertExpression cfg x = (l', Err cause))
    /\ e = Errorf "query %s: %w"
                  [arg_s (Body_String q);
                   arg_w (Some (Errorf "expression %s: %w"
                                       [arg_s (Expr_String x);
                                        arg_w (Some cause)]))].
Proof.
  unfold go_rego.ConvertRegoAst.
  destruct (_ =? 0)%nat; [discriminate|].
  destruct (anyEmptyQuery _); [discriminate|].
  intros H.
  destruct (convertQueries_Err_inv _ _ _ _ _ _ _ H) as (q & lq & c & Hq & Hc & ->).
  unfold go_rego.convertQuery in Hc.
  destruct (convertExpressions cfg q []) as [l0 [nodes|e0|m0|]] eqn:E;
    simpl in Hc; try discriminate Hc.
  injection Hc as _ <-.
  destruct (convertExpressions_Err_inv _ _ _ _ _ E) as (x & lx & cause & Hx & Hxe & ->).
  exists q, x, cause. eauto.
Qed.

(** X7. Under a supported operator with two arguments, the arguments are
    converted from left to right and the first that does not convert ends
    the conversion of the call: its error comes back wrapped as the error
    of a term of the arguments, and after a first argument that fails the
    second is not converted. *)
Theorem convertCall_argument_failure cfg op a b :
  In (Term_String Value_String op)
     ["eq"; "neq"; "equals"; "equal"; "internal.member_2"] ->
  (forall la e,
      convertTerm cfg a = (la, Err e) ->
      convertCall cfg [op; a; b]
      = (la, Err (Errorf "arguments: %w"
                         [arg_w (Some (Errorf "term: %w" [arg_w (Some e)]))])))
  /\ (forall la na lb e,
        convertTerm cfg a = (la, Ok na) ->
        convertTerm cfg b = (lb, Err e) ->
        convertCall cfg [op; a; b]
        = ((la ++ lb)%list,
           Err (Errorf "arguments: %w"
                       [arg_w (Some (Errorf "term: %w" [arg_w (Some e)]))]))).
Proof.
  intros Hop. unfold go_rego.convertCall, convertCallWith.
  change (index [op; a; b] 0) with (@ret ast.Term op).
  rewrite CompilerSpec.bind_ret_l.
  change (if (1 <? length [op; a; b])%nat then tl [op; a; b] else [])
    with [a; b].
  remember (Term_String Value_String op) as opString eqn:EopString.
  clear EopString.
  assert (Hsel : (opString =? "neq") || (opString =? "eq")
                 || (opString =? "equals") || (opString =? "equal") = true
                 \/ ((opString =? "neq") || (opString =? "eq")
                      || (opString =? "equals") || (opString =? "equal") = false
                     /\ (opString =? "internal.member_2") = true)).
  { simpl in Hop.
    destruct Hop as [<-|[<-|[<-|[<-|[<-|[]]]]]]; auto. }
  split.
  - intros la e Ha. unfold convertTermsWith. simpl. rewrite Ha. simpl.
    destruct Hsel as [->|[-> ->]]; reflexivity.
  - intros la na lb e Ha Hb. unfold convertTermsWith. simpl.
    rewrite Ha. simpl. rewrite Hb. simpl.
    destruct Hsel as [->|[-> ->]]; reflexivity.
Qed.

(** X10. The conversion of an expression does not read its negation flag:
    an expression and its negation convert to the same node, with the same
    converter calls. *)
Theorem negation_is_ignored cfg neg terms l n :
  convertExpression cfg (ast.mkExpr neg terms) = (l, Ok n) ->
  convertExpression cfg (ast.mkExpr (negb neg) terms) = (l, Ok n).
Proof.
  unfold go_rego.convertExpression, ast.IsCall. simpl.
  destruct terms as [c|t|]; [| |discriminate].
  - rewrite !CompilerSpec.bind_ret_l.
    destruct (convertCall cfg c) as [l0 [n0|e0|m0|]]; simpl; try discriminate.
    destruct (negb (sqlast.IsBooleanNode n0)); simpl; [discriminate | auto].
  - destruct (convertTerm cfg t) as [l0 [n0|e0|m0|]]; simpl; try discriminate.
    destruct (negb (sqlast.IsBooleanNode n0)); simpl; [discriminate | auto].
Qed.

(** *** No panic *)

Lemma bind_no_panic {A B} (m : M A) (k : A -> M B) :
  (forall msg, snd m <> Panic msg) ->
  (forall l a, m = (l, Ok a) -> forall msg, snd (k a) <> Panic msg) ->
  forall msg, snd (bind m k) <> Panic msg.
Proof.
  destruct m as [l [a|e|p|]]; simpl; intros Hm Hk msg; try discriminate.
  - specialize (Hk l a eq_refl msg). destruct (k a) as [l' o]. exact Hk.
  - exfalso. now apply (Hm p).
Qed.

Lemma wrapErr_no_panic {A} wrap (m : M A) :
  (forall msg, snd m <> Panic msg) ->
  forall msg, snd (wrapErr wrap m) <> Panic msg.
Proof.
  destruct m as [l [a|e|p|]]; simpl; intros Hm msg; try discriminate.
  apply Hm.
Qed.

Lemma wrapErr_Ok_inv {A} wrap (m : M A) l a :
  wrapErr wrap m = (l, Ok a) -> m = (l, Ok a).
Proof.
  destruct m as [l0 [a0|e|p|]]; simpl; intros H; try discriminate H; exact H.
Qed.

Lemma convertTermsLoop_no_panic f cfg terms :
  (forall t, In t terms -> forall msg, snd (f cfg t) <> Panic msg) ->
  forall acc msg, snd (convertTermsLoop f cfg terms acc) <> Panic msg.
Proof.
  induction terms as [|t terms IH]; intros H acc; simpl; [discriminate|].
  apply bind_no_panic.
  - apply wrapErr_no_panic, H. now left.
  - intros l a _. apply IH. intros u Hu. apply H. now right.
Qed.

Lemma convertElems_no_panic f cfg v rest :
  (forall t, In t rest -> forall msg, snd (f cfg t) <> Panic msg) ->
  forall i acc msg,
    snd (convertElems Value_String f cfg v i rest acc) <> Panic msg.
Proof.
  induction rest as [|t rest IH]; intros H i acc; simpl; [discriminate|].
  apply bind_no_panic.
  - apply wrapErr_no_panic, H. now left.
  - intros l a _. apply IH. intros u Hu. apply H. now right.
Qed.

(** After [convertTerms] with two expected terms, [args[0]] and [args[1]]
    are in range. *)
Lemma convertTermsWith_two f cfg args l nodes :
  convertTermsWith f cfg args 2 = (l, Ok nodes) ->
  exists n0 n1, nodes = [n0; n1].
Proof.
  unfold convertTermsWith.
  destruct (Nat.eqb_spec (length args) 2) as [E|E]; simpl; [|discriminate].
  intros H. apply convertTermsLoop_inv in H.
  destruct H as (rs & Hrs & _ & ->).
  apply Forall2_length in Hrs. rewrite E in Hrs.
  destruct rs as [|r0 [|r1 [|r2 rs]]]; try discriminate Hrs.
  simpl. eauto.
Qed.

Lemma convertCallWith_no_panic f cfg op args :
  (forall t, In t args -> forall msg, snd (f cfg t) <> Panic msg) ->
  forall msg, snd (convertCallWith Value_String f cfg (op :: args)) <> Panic msg.
Proof.
  intros H. unfold convertCallWith.
  change (index (op :: args) 0) with (@ret ast.Term op).
  rewrite CompilerSpec.bind_ret_l, CompilerSpec.call_args.
  assert (Hargs : forall msg,
             snd (wrapErr (fun err => Errorf "arguments: %w" [arg_w (Some err)])
                    (convertTermsWith f cfg args 2)) <> Panic msg).
  { apply wrapErr_no_panic. unfold convertTermsWith.
    destruct (negb _); [discriminate|]. now apply convertTermsLoop_no_panic. }
  destruct (_ || _).
  - apply bind_no_panic; [exact Hargs|].
    intros l nodes Hn. apply wrapErr_Ok_inv, convertTermsWith_two in Hn.
    destruct Hn as (n0 & n1 & ->). discriminate.
  - destruct (_ =? _); [|discriminate].
    apply bind_no_panic; [exact Hargs|].
    intros l nodes Hn. apply wrapErr_Ok_inv, convertTermsWith_two in Hn.
    destruct Hn as (n0 & n1 & ->). discriminate.
Qed.

Lemma Sorted_callsHaveOperator keys :
  forallb contract.Term_callsHaveOperator keys = true ->
  forallb contract.Term_callsHaveOperator (ast.Sorted Compare keys) = true.
Proof.
  rewrite !forallb_forall. intros H t Ht. apply H.
  eapply Permutation_in; [apply CompilerSpec.Sorted_perm | exact Ht].
Qed.

Lemma convertTermFuel_no_panic n :
  forall cfg t,
    contract.Term_callsHaveOperator t = true ->
    forall msg, snd (convertTermFuel n cfg t) <> Panic msg.
Proof.
  induction n as [|n IH]; intros cfg t Hwf; [discriminate|].
  destruct t as [v loc]. destruct v; simpl in *; try discriminate.
  - (* Ref *)
    destruct (length r =? 0)%nat; [discriminate|].
    destruct (VariableConverter cfg) as [vc|]; [|discriminate].
    destruct (ConvertVariable vc r); discriminate.
  - (* Array *)
    apply bind_no_panic.
    + apply convertElems_no_panic. intros t Ht. apply IH.
      rewrite forallb_forall in Hwf. now apply Hwf.
    + intros l nodes _. destruct (Array _ nodes); discriminate.
  - (* Set *)
    apply IH. simpl. now apply Sorted_callsHaveOperator.
  - (* Call *)
    destruct c as [|op args]; [discriminate Hwf|].
    apply convertCallWith_no_panic. intros t Ht. apply IH.
    rewrite forallb_forall in Hwf. now apply Hwf.
Qed.

Lemma convertExpression_no_panic cfg e :
  contract.Expr_callsHaveOperator e = true ->
  forall msg, snd (convertExpression cfg e) <> Panic msg.
Proof.
  unfold contract.Expr_callsHaveOperator, go_rego.convertExpression, ast.IsCall.
  destruct (ast.Terms e) as [c|t|]; intros Hwf; [| |discriminate].
  - rewrite CompilerSpec.bind_ret_l. apply bind_no_panic.
    + apply wrapErr_no_panic.
      destruct c as [|op args]; [discriminate Hwf|].
      apply convertCallWith_no_panic. intros t Ht.
      apply convertTermFuel_no_panic.
      simpl in Hwf. rewrite forallb_forall in Hwf. now apply Hwf.
    + intros l n _. destruct (negb _); discriminate.
  - apply bind_no_panic.
    + apply wrapErr_no_panic. now apply convertTermFuel_no_panic.
    + intros l n _. destruct (negb _); discriminate.
Qed.

Lemma convertExpressions_no_panic cfg q :
  forallb contract.Expr_callsHaveOperator q = true ->
  forall acc msg, snd (convertExpressions cfg q acc) <> Panic msg.
Proof.
  induction q as [|e q IH]; simpl; intros Hwf acc; [discriminate|].
  apply andb_prop in Hwf. destruct Hwf as [He Hq].
  apply bind_no_panic.
  - now apply wrapErr_no_panic, convertExpression_no_panic.
  - intros l a _. now apply IH.
Qed.

Lemma convertQueries_no_panic cfg rest :
  contract.Queries_callsHaveOperator rest = true ->
  forall i builder acc msg,
    snd (convertQueries cfg i rest builder acc) <> Panic msg.
Proof.
  unfold contract.Queries_callsHaveOperator.
  induction rest as [|q rest IH]; simpl; intros Hwf i builder acc;
    [discriminate|].
  apply andb_prop in Hwf. destruct Hwf as [Hq Hrest].
  apply bind_no_panic.
  - apply wrapErr_no_panic. unfold go_rego.convertQuery.
    apply bind_no_panic; [now apply convertExpressions_no_panic|].
    intros; discriminate.
  - intros l a _. destruct (negb _); [discriminate | now apply IH].
Qed.

(** X11. The compiler's own indexing stays in range.  The input is one
    without nil pointers (the query set, its expressions and its terms are
    values of the model's types), and the functions that the compiler calls
    (the [String] methods, [Compare], [ConvertVariable], [sqlast.Array])
    return.  When every call that the conversion reaches has its operator
    term, the index expressions [call[0]], [args[0]] and [args[1]] of
    [convertCall] are in range, the arity check of [convertTerms] seeing to
    the last two, and the type assertion of [convertExpression] on a call
    holds: [ConvertRegoAst] ends with a node or an error, and in no panic
    of its own. *)
Theorem ConvertRegoAst_index_in_range cfg partial :
  contract.Queries_callsHaveOperator (rego.Queries partial) = true ->
  exists l,
    (exists n, ConvertRegoAst cfg partial = (l, Ok n))
    \/ (exists e, ConvertRegoAst cfg partial = (l, Err e)).
Proof.
  intros Hwf.
  assert (Hp : forall msg, snd (ConvertRegoAst cfg partial) <> Panic msg).
  { unfold go_rego.ConvertRegoAst.
    destruct (_ =? 0)%nat; [discriminate|].
    destruct (anyEmptyQuery _); [discriminate|].
    now apply convertQueries_no_panic. }
  pose proof (CompilerSpec.ConvertRegoAst_returns Value_String Expr_String
                Body_String Compare Array cfg partial) as Hf.
  destruct (ConvertRegoAst cfg partial) as [l [n|e|msg|]]; simpl in *.
  - exists l. left. eauto.
  - exists l. right. eauto.
  - now elim (Hp msg).
  - now elim Hf.
Qed.

(** *** The calls to the variable converter *)

Section Consulted.

Variable P : list ast.Term -> Prop.

Lemma bind_log {A B} (m : M A) (k : A -> M B) :
  Forall P (fst m) -> (forall a, Forall P (fst (k a))) ->
  Forall P (fst (bind m k)).
Proof.
  destruct m as [l [a|e|p|]]; simpl; intros Hm Hk; try exact Hm.
  specialize (Hk a). destruct (k a) as [l' o]. simpl in *.
  apply Forall_app. auto.
Qed.

Lemma wrapErr_log {A} wrap (m : M A) :
  Forall P (fst m) -> Forall P (fst (wrapErr wrap m)).
Proof. now destruct m as [l [a|e|p|]]. Qed.

Lemma convertTermsLoop_log f cfg :
  (forall t, Forall P (fst (f cfg t))) ->
  forall terms acc, Forall P (fst (convertTermsLoop f cfg terms acc)).
Proof.
  intros H. induction terms as [|t terms IH]; intros acc; simpl; [constructor|].
  apply bind_log; [apply wrapErr_log, H | intros a; apply IH].
Qed.

Lemma convertElems_log f cfg v :
  (forall t, Forall P (fst (f cfg t))) ->
  forall rest i acc,
    Forall P (fst (convertElems Value_String f cfg v i rest acc)).
Proof.
  intros H. induction rest as [|t rest IH]; intros i acc; simpl; [constructor|].
  apply bind_log; [apply wrapErr_log, H | intros a; apply IH].
Qed.

Lemma convertCallWith_log f cfg call :
  (forall t, Forall P (fst (f cfg t))) ->
  Forall P (fst (convertCallWith Value_String f cfg call)).
Proof.
  intros H. unfold convertCallWith.
  assert (Hargs : forall args n,
             Forall P (fst (wrapErr
                              (fun err => Errorf "arguments: %w" [arg_w (Some err)])
                              (convertTermsWith f cfg args n)))).
  { intros args n. apply wrapErr_log. unfold convertTermsWith.
    destruct (negb _); [constructor | now apply convertTermsLoop_log]. }
  apply bind_log.
  - unfold index. destruct (nth_error call 0); constructor.
  - intros op.
    assert (Hidx : forall (l : list sqlast.Node) i, Forall P (fst (index l i))).
    { intros l i. unfold index. destruct (nth_error l i); constructor. }
    destruct (_ || _).
    + apply bind_log; [apply Hargs|]. intros nodes.
      apply bind_log; [apply Hidx|]. intros a0.
      apply bind_log; [apply Hidx|]. intros a1. constructor.
    + destruct (_ =? _); [|constructor].
      apply bind_log; [apply Hargs|]. intros nodes.
      apply bind_log; [apply Hidx|]. intros a0.
      apply bind_log; [apply Hidx|]. intros a1. constructor.
Qed.

End Consulted.

Lemma convertTermFuel_log n :
  forall cfg t,
    Forall (fun r => r <> [] /\ VariableConverter cfg <> None)
           (fst (convertTermFuel n cfg t)).
Proof.
  induction n as [|n IH]; intros cfg t; [constructor|].
  destruct t as [v loc]. destruct v; simpl; try constructor.
  - (* Ref *)
    destruct r as [|t r]; simpl; [constructor|].
    destruct (VariableConverter cfg) as [vc|] eqn:E; [|constructor].
    destruct (ConvertVariable vc (t :: r)); simpl;
      (constructor; [split; discriminate | constructor]).
  - (* Array *)
    apply bind_log; [apply convertElems_log, IH|].
    intros nodes. destruct (Array _ nodes); constructor.
  - (* Set *)
    apply IH.
  - (* Call *)
    apply convertCallWith_log, IH.
Qed.

Lemma convertExpression_log cfg e :
  Forall (fun r => r <> [] /\ VariableConverter cfg <> None)
         (fst (convertExpression cfg e)).
Proof.
  unfold go_rego.convertExpression.
  destruct (ast.IsCall e).
  - apply bind_log.
    + destruct (ast.Terms e); constructor.
    + intros call. apply bind_log.
      * apply wrapErr_log, convertCallWith_log. intros t.
        apply convertTermFuel_log.
      * intros n. destruct (negb _); constructor.
  - destruct (ast.Terms e) as [c|t|]; try constructor.
    apply bind_log.
    + apply wrapErr_log, convertTermFuel_log.
    + intros n. destruct (negb _); constructor.
Qed.

Lemma convertExpressions_log cfg q :
  forall acc,
    Forall (fun r => r <> [] /\ VariableConverter cfg <> None)
           (fst (convertExpressions cfg q acc)).
Proof.
  induction q as [|e q IH]; intros acc; simpl; [constructor|].
  apply bind_log; [apply wrapErr_log, convertExpression_log | intros a; apply IH].
Qed.

Lemma convertQueries_log cfg rest :
  forall i builder acc,
    Forall (fun r => r <> [] /\ VariableConverter cfg <> None)
           (fst (convertQueries cfg i rest builder acc)).
Proof.
  induction rest as [|q rest IH]; intros i builder acc; simpl; [constructor|].
  apply bind_log.
  - apply wrapErr_log. unfold go_rego.convertQuery.
    apply bind_log; [apply convertExpressions_log | intros; constructor].
  - intros a. destruct (negb _); [constructor | apply IH].
Qed.

(** X12. Whatever the query set, the variable converter is only called
    with a reference that is not empty, and only when the configuration
    has a converter: with none, it is never called. *)
Theorem converter_calls_are_guarded cfg partial :
  Forall (fun r => r <> [] /\ VariableConverter cfg <> None)
         (fst (ConvertRegoAst cfg partial))
  /\ (VariableConverter cfg = None -> fst (ConvertRegoAst cfg partial) = []).
Proof.
  assert (H : Forall (fun r => r <> [] /\ VariableConverter cfg <> None)
                     (fst (ConvertRegoAst cfg partial))).
  { unfold go_rego.ConvertRegoAst.
    destruct (_ =? 0)%nat; [constructor|].
    destruct (anyEmptyQuery _); [constructor | apply convertQueries_log]. }
  split; [exact H|].
  intros Hnone. destruct (fst (ConvertRegoAst cfg partial)) as [|r l];
    [reflexivity|].
  inversion H as [|? ? [_ Hc] _]. now elim Hc.
Qed.

(** *** What a successful compilation says of its input *)

Lemma convertElems_inv f cfg v rest :
  forall i acc l nodes,
    convertElems Value_String f cfg v i rest acc = (l, Ok nodes) ->
    Forall (fun t => exists lt nt, f cfg t = (lt, Ok nt)) rest.
Proof.
  induction rest as [|t rest IH]; intros i acc l nodes H; simpl in H;
    [constructor|].
  destruct (f cfg t) as [lt [nt|et|mt|]] eqn:Et; simpl in H;
    try discriminate H.
  destruct (convertElems Value_String f cfg v (S i) rest (acc ++ [nt]))
    as [l' o'] eqn:E'.
  injection H as _ ->. constructor; [eauto | eapply IH; eauto].
Qed.

Lemma convertCallWith_Ok_inv f cfg call l n :
  convertCallWith Value_String f cfg call = (l, Ok n) ->
  exists op a b,
    call = [op; a; b]
    /\ contract.supportedOperator Value_String op = true
    /\ (exists la na, f cfg a = (la, Ok na))
    /\ (exists lb nb, f cfg b = (lb, Ok nb)).
Proof.
  destruct call as [|op args]; [discriminate|].
  unfold convertCallWith.
  change (index (op :: args) 0) with (@ret ast.Term op).
  rewrite CompilerSpec.bind_ret_l, CompilerSpec.call_args.
  remember (Term_String Value_String op) as opString eqn:EopString.
  assert (Hsup1 : (opString =? "neq") || (opString =? "eq")
                  || (opString =? "equals") || (opString =? "equal") = true ->
                  contract.supportedOperator Value_String op = true).
  { intros H1. unfold contract.supportedOperator.
    change (Value_String (ast.Term_Value op)) with (Term_String Value_String op).
    now rewrite <- EopString, H1. }
  assert (Hsup2 : (opString =? "internal.member_2") = true ->
                  contract.supportedOperator Value_String op = true).
  { intros H2. unfold contract.supportedOperator.
    change (Value_String (ast.Term_Value op)) with (Term_String Value_String op).
    rewrite <- EopString, H2. apply orb_true_r. }
  clear EopString.
  assert (Hargs : forall l0 nodes,
             wrapErr (fun err => Errorf "arguments: %w" [arg_w (Some err)])
                     (convertTermsWith f cfg args 2) = (l0, Ok nodes) ->
             exists a b, args = [a; b]
                         /\ (exists la na, f cfg a = (la, Ok na))
                         /\ (exists lb nb, f cfg b = (lb, Ok nb))).
  { intros l0 nodes E. apply wrapErr_Ok_inv in E.
    unfold convertTermsWith in E.
    destruct (Nat.eqb_spec (length args) 2) as [E2|E2]; simpl in E;
      [|discriminate E].
    apply convertTermsLoop_inv in E. destruct E as (rs & Hrs & _ & _).
    destruct args as [|a [|b [|c args]]]; try discriminate E2.
    inversion Hrs as [|? ra ? rs1 Ha Hrs1]; subst.
    inversion Hrs1 as [|? rb ? rs2 Hb Hrs2]; subst.
    exists a, b. eauto 8. }
  intros H.
  destruct ((opString =? "neq") || (opString =? "eq")
            || (opString =? "equals") || (opString =? "equal")) eqn:Eeq.
  - destruct (wrapErr _ (convertTermsWith f cfg args 2))
      as [l0 [nodes|e0|m0|]] eqn:E; simpl in H; try discriminate H.
    destruct (Hargs _ _ eq_refl) as (a & b & -> & Ha & Hb).
    exists op, a, b. repeat split; auto.
  - destruct (opString =? "internal.member_2") eqn:Em; [|discriminate H].
    destruct (wrapErr _ (convertTermsWith f cfg args 2))
      as [l0 [nodes|e0|m0|]] eqn:E; simpl in H; try discriminate H.
    destruct (Hargs _ _ eq_refl) as (a & b & -> & Ha & Hb).
    exists op, a, b. repeat split; auto.
Qed.

Lemma Sorted_supported keys :
  forallb (contract.Term_supported Value_String) (ast.Sorted Compare keys) = true ->
  forallb (contract.Term_supported Value_String) keys = true.
Proof.
  rewrite !forallb_forall. intros H t Ht. apply H.
  eapply Permutation_in; [apply Permutation_sym, CompilerSpec.Sorted_perm|].
  exact Ht.
Qed.

Lemma convertTermFuel_supported n :
  forall cfg t l node,
    convertTermFuel n cfg t = (l, Ok node) ->
    contract.Term_supported Value_String t = true.
Proof.
  induction n as [|n IH]; intros cfg t l node H; [discriminate H|].
  destruct t as [v loc]. destruct v; simpl in *; try discriminate H;
    try reflexivity.
  - (* Ref *)
    destruct (length r =? 0)%nat; [discriminate H | reflexivity].
  - (* Array *)
    destruct (convertElems Value_String (convertTermFuel n) cfg
                (ast.Array elems) 0 elems []) as [l0 [nodes|e0|m0|]] eqn:E;
      simpl in H; try discriminate H.
    apply convertElems_inv in E. apply forallb_forall. intros t Ht.
    rewrite Forall_forall in E. destruct (E t Ht) as (lt & nt & Et).
    eapply IH; eauto.
  - (* Set *)
    apply IH in H. simpl in H. now apply Sorted_supported.
  - (* Call *)
    apply convertCallWith_Ok_inv in H.
    destruct H as (op & a & b & -> & Hop & (la & na & Ha) & (lb & nb & Hb)).
    rewrite Hop, (IH _ _ _ _ Ha), (IH _ _ _ _ Hb). reflexivity.
Qed.

Lemma convertExpression_supported cfg e l n :
  convertExpression cfg e = (l, Ok n) ->
  contract.Expr_supported Value_String e = true.
Proof.
  unfold go_rego.convertExpression, ast.IsCall, contract.Expr_supported.
  destruct (ast.Terms e) as [c|t|]; [| |discriminate].
  - rewrite CompilerSpec.bind_ret_l.
    destruct (convertCall cfg c) as [l0 [n0|e0|m0|]] eqn:E; simpl;
      try discriminate.
    intros _. apply convertCallWith_Ok_inv in E.
    destruct E as (op & a & b & -> & Hop & (la & na & Ha) & (lb & nb & Hb)).
    simpl. rewrite Hop.
    rewrite (convertTermFuel_supported _ _ _ _ _ Ha).
    rewrite (convertTermFuel_supported _ _ _ _ _ Hb). reflexivity.
  - destruct (convertTerm cfg t) as [l0 [n0|e0|m0|]] eqn:E; simpl;
      try discriminate.
    intros _. eapply convertTermFuel_supported; eauto.
Qed.

(** X13. A compilation only succeeds on input of the supported shape: when
    [ConvertRegoAst] returns a node for a set that has queries, none of
    them empty, every expression of every query is a call or a term made
    of literals, references that are not empty, arrays, sets, and calls of
    one of the five operator names on two arguments. *)
Theorem compiled_input_is_supported cfg partial l n :
  rego.Queries partial <> [] ->
  ~ In [] (rego.Queries partial) ->
  ConvertRegoAst cfg partial = (l, Ok n) ->
  forallb (forallb (contract.Expr_supported Value_String))
          (rego.Queries partial) = true.
Proof.
  intros Hne Hempty H. unfold go_rego.ConvertRegoAst in H.
  rewrite (anyEmptyQuery_false _ Hempty) in H.
  destruct (rego.Queries partial) as [|q0 queries] eqn:Eq; [now elim Hne|].
  change (length (q0 :: queries) =? 0)%nat with false in H. cbv iota in H.
  apply forallb_forall. intros q Hq.
  destruct (CompilerSpec.convertQueries_Ok _ _ _ _ _ _ _ _ _ _ _ _ H q Hq)
    as (lq & nq & Hconv).
  apply convertQuery_conjunction_inv in Hconv.
  apply forallb_forall. intros e He.
  rewrite Forall_forall in Hconv. destruct (Hconv e He) as (le & ne & Hee).
  eapply convertExpression_supported; eauto.
Qed.

End Props.

(** *** The properties on the test data *)
Section Examples.
Import testdata fixtures.

Local Abbreviation convertTerm := (convertTerm showValue compareValues anyArray).
Local Abbreviation convertTerms := (convertTerms showValue compareValues anyArray).
Local Abbreviation convertCall := (convertCall showValue compareValues anyArray).
Local Abbreviation convertExpression :=
  (convertExpression showValue showExpr compareValues anyArray).
Local Abbreviation convertQuery :=
  (convertQuery showValue showExpr showBody compareValues anyArray).
Local Abbreviation ConvertRegoAst :=
  (ConvertRegoAst showValue showExpr showBody compareValues anyArray).

(** The two queries [eq(bob, author)] and [deleted]; then, between them,
    the query [lt(1, author)], which does not convert. *)
Lemma ConvertRegoAst_disjunction_witness :
  ConvertRegoAst cfg
    (rego.mkPartialQueries [[exprCall "eq" [bob; author]]; [exprTerm deleted]])
  = ([pathOf author; pathOf deleted],
     Ok (sqlast.Or
           (showBody [exprCall "eq" [bob; author]] ++ newline
            ++ showBody [exprTerm deleted])
           [sqlast.And (showBody [exprCall "eq" [bob; author]])
                       [sqlast.equality (sqlast.AstString "bob") authorColumn false];
            sqlast.And (showBody [exprTerm deleted]) [deletedColumn]])).
Proof.
  apply (ConvertRegoAst_disjunction showValue showExpr showBody compareValues
           anyArray cfg
           (rego.mkPartialQueries
              [[exprCall "eq" [bob; author]]; [exprTerm deleted]])
           [([pathOf author],
             sqlast.And (showBody [exprCall "eq" [bob; author]])
                        [sqlast.equality (sqlast.AstString "bob") authorColumn
                                         false]);
            ([pathOf deleted],
             sqlast.And (showBody [exprTerm deleted]) [deletedColumn])]).
  - discriminate.
  - simpl. intros [H|[H|[]]]; discriminate H.
  - repeat constructor.
Defined.

Lemma ConvertRegoAst_first_failure_witness :
  exists e,
    ConvertRegoAst cfg
      (rego.mkPartialQueries
         [[exprCall "eq" [bob; author]];
          [exprCall "lt" [term (ast.Number "1"); author]];
          [exprTerm deleted]])
    = ([pathOf author],
       Err (Errorf "query %s: %w"
                   [arg_s (showBody [exprCall "lt" [term (ast.Number "1"); author]]);
                    arg_w (Some e)])).
Proof.
  eexists.
  apply (ConvertRegoAst_first_failure showValue showExpr showBody compareValues
           anyArray cfg
           (rego.mkPartialQueries
              [[exprCall "eq" [bob; author]];
               [exprCall "lt" [term (ast.Number "1"); author]];
               [exprTerm deleted]])
           [[exprCall "eq" [bob; author]]]
           [([pathOf author],
             sqlast.And (showBody [exprCall "eq" [bob; author]])
                        [sqlast.equality (sqlast.AstString "bob") authorColumn
                                         false])]
           [exprCall "lt" [term (ast.Number "1"); author]]
           [[exprTerm deleted]] []).
  - reflexivity.
  - simpl. intros [H|[H|[H|[]]]]; discriminate H.
  - repeat constructor.
  - reflexivity.
Defined.

Lemma convertQuery_conjunction_witness :
  convertQuery cfg [exprTerm deleted; exprCall "neq" [author; bob]]
  = ([pathOf deleted; pathOf author],
     Ok (sqlast.And
           (showBody [exprTerm deleted; exprCall "neq" [author; bob]])
           [deletedColumn;
            sqlast.equality authorColumn (sqlast.AstString "bob") true])).
Proof.
  apply (proj2 (convertQuery_conjunction showValue showExpr showBody
                  compareValues anyArray cfg
                  [exprTerm deleted; exprCall "neq" [author; bob]] _ _)).
  exists [([pathOf deleted], deletedColumn);
          ([pathOf author],
           sqlast.equality authorColumn (sqlast.AstString "bob") true)].
  split; [repeat constructor | split; reflexivity].
Defined.

(** [deleted; author; unknown]: the string column [author] is not a
    predicate, and [unknown] is not looked at. *)
Lemma convertQuery_first_failure_witness :
  exists e,
    convertQuery cfg [exprTerm deleted; exprTerm author; exprTerm unknown]
    = ([pathOf deleted; pathOf author],
       Err (Errorf "expression %s: %w"
                   [arg_s (showExpr (exprTerm author)); arg_w (Some e)])).
Proof.
  eexists.
  apply (convertQuery_first_failure showValue showExpr showBody compareValues
           anyArray cfg [exprTerm deleted] [([pathOf deleted], deletedColumn)]
           (exprTerm author) [exprTerm unknown] [pathOf author]).
  - repeat constructor.
  - reflexivity.
Defined.

Lemma ConvertRegoAst_error_chain_witness :
  exists q x cause,
    In q [[exprTerm deleted]; [exprTerm deleted; exprTerm unknown]]
    /\ In x q
    /\ (exists l', convertExpression cfg x = (l', Err cause))
    /\ exists l e,
        ConvertRegoAst cfg
          (rego.mkPartialQueries
             [[exprTerm deleted]; [exprTerm deleted; exprTerm unknown]])
        = (l, Err e)
        /\ e = Errorf "query %s: %w"
                      [arg_s (showBody q);
                       arg_w (Some (Errorf "expression %s: %w"
                                           [arg_s (showExpr x);
                                            arg_w (Some cause)]))].
Proof.
  destruct (ConvertRegoAst_error_chain showValue showExpr showBody
              compareValues anyArray cfg
              (rego.mkPartialQueries
                 [[exprTerm deleted]; [exprTerm deleted; exprTerm unknown]])
              _ _ eq_refl) as (q & x & cause & Hq & Hx & Hc & He).
  exists q, x, cause. repeat split; auto.
  do 2 eexists. split; [reflexivity | exact He].
Defined.

Lemma convertTerms_exact_witness :
  convertTerms cfg [bob; author] 2
  = ([pathOf author], Ok [sqlast.AstString "bob"; authorColumn])
  /\ forall l nodes, convertTerms cfg [bob; author] 3 <> (l, Ok nodes).
Proof.
  split.
  - apply (proj2 (convertTerms_exact showValue compareValues anyArray cfg
                    [bob; author] 2 _ _)).
    split; [reflexivity|].
    exists [([], sqlast.AstString "bob"); ([pathOf author], authorColumn)].
    split; [repeat constructor | split; reflexivity].
  - intros l nodes H.
    apply (proj1 (convertTerms_exact showValue compareValues anyArray cfg
                    [bob; author] 3 l nodes)) in H.
    destruct H as [H _]. discriminate H.
Defined.

(** [eq(unknown, author)]: [author] is not looked at. *)
Lemma convertCall_argument_failure_witness :
  exists e,
    convertCall cfg (call "eq" [unknown; author])
    = ([pathOf unknown],
       Err (Errorf "arguments: %w"
                   [arg_w (Some (Errorf "term: %w" [arg_w (Some e)]))])).
Proof.
  eexists.
  apply (proj1 (convertCall_argument_failure showValue compareValues anyArray
                  cfg (ref ["eq"]) unknown author
                  (or_introl eq_refl))).
  reflexivity.
Defined.

Lemma array_elements_in_order_witness :
  convertTerm cfg (term (ast.Array [author; bob; deleted]))
  = ([pathOf author; pathOf deleted],
     Ok (sqlast.AstArray (showValue (ast.Array [author; bob; deleted]))
           [authorColumn; sqlast.AstString "bob"; deletedColumn])).
Proof.
  apply (array_elements_in_order showValue compareValues anyArray cfg
           [author; bob; deleted]
           [([pathOf author], authorColumn); ([], sqlast.AstString "bob");
            ([pathOf deleted], deletedColumn)] None).
  repeat constructor.
Defined.

Lemma array_first_failure_witness :
  exists e,
    convertTerm cfg (term (ast.Array [author; bob; unknown; deleted]))
    = ([pathOf author; pathOf unknown],
       Err (Errorf "array element %d in %q: %w"
                   [arg_d 2;
                    arg_q (showValue (ast.Array [author; bob; unknown; deleted]));
                    arg_w (Some e)])).
Proof.
  eexists.
  apply (array_first_failure showValue compareValues anyArray cfg
           [author; bob]
           [([pathOf author], authorColumn); ([], sqlast.AstString "bob")]
           unknown [deleted] None [pathOf unknown]).
  - repeat constructor.
  - reflexivity.
Defined.

(** [not deleted] compiles as [deleted]. *)
Lemma negation_is_ignored_witness :
  convertExpression cfg (ast.mkExpr true (ast.Terms_Term deleted))
  = ([pathOf deleted], Ok deletedColumn).
Proof.
  apply (negation_is_ignored showValue showExpr compareValues anyArray cfg
           false (ast.Terms_Term deleted)).
  reflexivity.
Defined.

Lemma ConvertRegoAst_index_in_range_witness :
  exists l,
    (exists n,
        ConvertRegoAst cfg
          (rego.mkPartialQueries
             [[exprCall "eq" [bob; term (ast.Call (call "lt" [author]))]]])
        = (l, Ok n))
    \/ (exists e,
           ConvertRegoAst cfg
             (rego.mkPartialQueries
                [[exprCall "eq" [bob; term (ast.Call (call "lt" [author]))]]])
           = (l, Err e)).
Proof.
  apply (ConvertRegoAst_index_in_range showValue showExpr showBody compareValues
           anyArray cfg).
  reflexivity.
Defined.

Lemma converter_calls_are_guarded_witness :
  fst (ConvertRegoAst noConverter
         (rego.mkPartialQueries [[exprCall "eq" [bob; author]]]))
  = [].
Proof.
  apply (proj2 (converter_calls_are_guarded showValue showExpr showBody
                  compareValues anyArray noConverter
                  (rego.mkPartialQueries [[exprCall "eq" [bob; author]]]))).
  reflexivity.
Defined.

Lemma compiled_input_is_supported_witness :
  forallb (forallb (contract.Expr_supported showValue))
          [[exprCall "eq" [bob; author]]; [exprTerm deleted]]
  = true.
Proof.
  apply (compiled_input_is_supported showValue showExpr showBody compareValues
           anyArray cfg
           (rego.mkPartialQueries
              [[exprCall "eq" [bob; author]]; [exprTerm deleted]])
           [pathOf author; pathOf deleted]
           (sqlast.Or
              (showBody [exprCall "eq" [bob; author]] ++ newline
               ++ showBody [exprTerm deleted])
              [sqlast.And (showBody [exprCall "eq" [bob; author]])
                          [sqlast.equality (sqlast.AstString "bob")
                                           authorColumn false];
               sqlast.And (showBody [exprTerm deleted]) [deletedColumn]])).
  - discriminate.
  - simpl. intros [H|[H|[]]]; discriminate H.
  - reflexivity.
Defined.

End Examples.

End CompilerExtra.

(** * Further properties of the rendering *)
Module RenderingExtra.
Import sqlast.

Section Props.

Variable otherUseAs : Node -> NodeType.
Variable otherSupportsEquality : Node -> bool.
Variable otherEqualsSQLString :
  Node -> SQLGenerator -> bool -> Node -> (string + error) * SQLGenerator.
Variable otherSQLString : Node -> SQLGenerator -> string * SQLGenerator.

Local Abbreviation UseAs := (UseAs otherUseAs).
Local Abbreviation SQLString :=
  (SQLString otherUseAs otherSupportsEquality otherEqualsSQLString otherSQLString).

(** A comparison on the left of a boolean operand renders the comparison
    itself, in one of the two forms of [equality.EqualsSQLString]. *)
Lemma comparison_left_literal l r n other nt cfg :
  UseAs other = T_AstBoolean ->
  SQLString (equality (equality l r n) other nt) cfg
  = (let (se, cfg1) := SQLString (equality l r n) cfg in
     let (so, cfg2) := SQLString other cfg1 in
     ("(" ++ se ++ ") " ++ equalsOp nt ++ " " ++ so, cfg2)).
Proof.
  intros H. rewrite EqualitySpec.SQLString_equality.
  unfold tryEquality, tryEquality_. cbn [sqlast.SupportsEquality EqualsSQLString_].
  unfold equality_EqualsSQLString. rewrite H.
  destruct (SQLString (equality l r n) cfg) as [se cfg1].
  now destruct (SQLString other cfg1) as [so cfg2].
Qed.

Lemma comparison_left_boolean l r n other nt cfg :
  UseAs other <> T_AstBoolean ->
  implementsBooleanNode (UseAs other) = true ->
  SQLString (equality (equality l r n) other nt) cfg
  = (let (se, cfg1) := SQLString (equality l r n) cfg in
     let (so, cfg2) := SQLString other cfg1 in
     ("(" ++ se ++ ") " ++ equalsOp nt ++ " (" ++ so ++ ")", cfg2)).
Proof.
  intros H1 H2. rewrite EqualitySpec.SQLString_equality.
  unfold tryEquality, tryEquality_. cbn [sqlast.SupportsEquality EqualsSQLString_].
  unfold equality_EqualsSQLString.
  destruct (SQLString (equality l r n) cfg) as [se cfg1].
  destruct (SQLString other cfg1) as [so cfg2].
  destruct (UseAs other); try (now elim H1); simpl in H2;
    rewrite ?H2; try discriminate H2; reflexivity.
Qed.

(** X15. An Equality node whose left operand is a comparison and whose
    right operand is of a boolean kind always renders through the
    comparison: first the comparison in parentheses, then the operator,
    then the right operand, bare when its kind is the boolean literal and
    in parentheses otherwise; the context is threaded through the two
    renderings in that order and gets no error from the node itself. *)
Theorem comparison_against_boolean l r n other nt cfg :
  UseAs other = T_AstBoolean \/ implementsBooleanNode (UseAs other) = true ->
  SQLString (equality (equality l r n) other nt) cfg
  = (let (se, cfg1) := SQLString (equality l r n) cfg in
     let (so, cfg2) := SQLString other cfg1 in
     ("(" ++ se ++ ") " ++ equalsOp nt ++ " "
      ++ (if match UseAs other with T_AstBoolean => true | _ => false end
          then so else "(" ++ so ++ ")"),
      cfg2)).
Proof.
  intros H.
  destruct (UseAs other) eqn:E;
    try (rewrite comparison_left_boolean;
         [reflexivity | rewrite E; discriminate | rewrite E; destruct H as [H|H];
                                                  [discriminate H | exact H]]).
  now rewrite comparison_left_literal.
Qed.

(** X16. An Equality node whose left operand is a number literal and
    whose right operand is of the number kind renders the text of the
    literal, the operator and the rendering of the right operand, without
    parentheses; the context is that left by the right operand. *)
Theorem number_against_number_kind src val other nt cfg :
  UseAs other = T_AstNumber ->
  SQLString (equality (AstNumber src val) other nt) cfg
  = (let (so, cfg1) := SQLString other cfg in
     (val ++ " " ++ equalsOp nt ++ " " ++ so, cfg1)).
Proof.
  intros H. rewrite EqualitySpec.SQLString_equality.
  unfold tryEquality, tryEquality_. cbn [sqlast.SupportsEquality EqualsSQLString_].
  unfold AstNumber_EqualsSQLString. rewrite H.
  unfold basicSQLEquality. cbn [sqlast.SQLString].
  now destruct (SQLString other cfg) as [so cfg1].
Qed.

(** X19. The operands can change sides in the text: when the left operand
    of an Equality node is of the number kind and declines the comparison,
    and the right operand is a number literal, the node renders the literal
    first, then the operator, then the left operand, in the context that
    the declined attempt left. *)
Theorem declined_left_number_right other src val nt cfg cfg1 :
  declines otherUseAs otherSupportsEquality otherEqualsSQLString otherSQLString
           other cfg nt (AstNumber src val) cfg1 ->
  UseAs other = T_AstNumber ->
  SQLString (equality other (AstNumber src val) nt) cfg
  = (let (so, cfg2) := SQLString other cfg1 in
     (val ++ " " ++ equalsOp nt ++ " " ++ so, cfg2)).
Proof.
  intros Hd Hk. apply EqualitySpec.tryEquality_declines in Hd.
  rewrite EqualitySpec.SQLString_equality, Hd.
  unfold tryEquality, tryEquality_. cbn [sqlast.SupportsEquality EqualsSQLString_].
  unfold AstNumber_EqualsSQLString. rewrite Hk.
  unfold basicSQLEquality. cbn [sqlast.SQLString].
  now destruct (SQLString other cfg1) as [so cfg2].
Qed.

(** X14. A number and a comparison cannot be compared, in either order:
    the Equality node renders to the sentinel, its operands are not
    rendered, and exactly one error is added to the context, with the types
    of the operands in the order of the node.  None of this depends on the
    other node variants. *)
Theorem number_against_comparison src val l r n nt cfg :
  SQLString (equality (AstNumber src val) (equality l r n) nt) cfg
  = ("EqualityError",
     mkSQLGenerator
       (errors cfg
        ++ [Errorf "unsupported equality: %T %s %T"
                   [arg_T "sqlast.AstNumber"; arg_s (equalsOp nt);
                    arg_T "sqlast.equality"]])%list)
  /\ SQLString (equality (equality l r n) (AstNumber src val) nt) cfg
     = ("EqualityError",
        mkSQLGenerator
          (errors cfg
           ++ [Errorf "unsupported equality: %T %s %T"
                      [arg_T "sqlast.equality"; arg_s (equalsOp nt);
                       arg_T "sqlast.AstNumber"]])%list).
Proof. split; reflexivity. Qed.

(** *** Trees of numbers and comparisons *)

Lemma sourceOnly_errors n :
  kinds.sourceOnly n = true ->
  forall cfg,
    exists es,
      errors (snd (SQLString n cfg)) = (errors cfg ++ es)%list
      /\ (es = [] <-> kinds.homogeneous n = true).
Proof.
  induction n as [b|s|src v|src vs|l IHl r IHr nt|x IHx y IHy|src op ts|ty b f];
    intros Hs cfg; try discriminate Hs.
  - exists []. simpl. rewrite app_nil_r. tauto.
  - simpl in Hs. apply andb_prop in Hs. destruct Hs as [Hl Hr].
    specialize (IHl Hl). specialize (IHr Hr).
    destruct l as [| |sl vl| |ll rl nl| | |]; try discriminate Hl;
      destruct r as [| |sr vr| |lr rr nr| | |]; try discriminate Hr.
    + exists []. simpl. rewrite app_nil_r. tauto.
    + eexists. split; [reflexivity|]. simpl. split; discriminate.
    + eexists. split; [reflexivity|]. simpl. split; discriminate.
    + rewrite comparison_left_boolean; [|discriminate|reflexivity].
      destruct (IHl cfg) as (es1 & E1 & H1).
      destruct (SQLString (equality ll rl nl) cfg) as [se cfg1]. simpl in E1.
      destruct (IHr cfg1) as (es2 & E2 & H2).
      destruct (SQLString (equality lr rr nr) cfg1) as [so cfg2]. simpl in E2.
      exists (es1 ++ es2)%list. simpl snd.
      split; [now rewrite E2, E1, app_assoc|].
      change (kinds.homogeneous (equality (equality ll rl nl)
                                          (equality lr rr nr) nt))
        with (kinds.homogeneous (equality ll rl nl)
              && kinds.homogeneous (equality lr rr nr)).
      rewrite andb_true_iff, <- H1, <- H2. split.
      * intros H. now apply app_eq_nil in H.
      * intros [-> ->]. reflexivity.
Qed.

(** X17. In a tree of numbers and comparisons, rendering keeps the errors
    that the context held and adds to them; it leaves the context as it
    was exactly when every comparison of the tree has two operands of one
    kind. *)
Theorem sourceOnly_no_error n cfg :
  kinds.sourceOnly n = true ->
  (exists es, errors (snd (SQLString n cfg)) = (errors cfg ++ es)%list)
  /\ (snd (SQLString n cfg) = cfg <-> kinds.homogeneous n = true).
Proof.
  intros Hs. destruct (sourceOnly_errors n Hs cfg) as (es & E & H).
  split; [eauto|]. rewrite <- H. split.
  - intros Hc. rewrite Hc in E.
    rewrite <- (app_nil_r (errors cfg)) in E at 1.
    apply app_inv_head in E. now symmetry.
  - intros ->. rewrite app_nil_r in E.
    destruct (snd (SQLString n cfg)) as [es1], cfg as [es0]. simpl in E.
    now rewrite E.
Qed.

End Props.

(** *** The properties on the test data *)
Section Examples.
Import testdata fixtures.

Local Abbreviation SQLString :=
  (SQLString leafUseAs leafSupportsEquality leafEqualsSQLString leafSQLString).

(** [(1 = 2) != deleted], on the boolean column, and [(1 = 2) = (2 = 1)]. *)
Lemma comparison_against_boolean_witness :
  SQLString (equality (equality one two false) deletedColumn true)
            NewSQLGenerator
  = ("(1 = 2) != deleted", NewSQLGenerator)
  /\ SQLString (equality (equality one two false) (equality two one false) false)
               NewSQLGenerator
     = ("(1 = 2) = (2 = 1)", NewSQLGenerator).
Proof.
  split.
  - apply (comparison_against_boolean leafUseAs leafSupportsEquality
             leafEqualsSQLString leafSQLString one two false deletedColumn
             true NewSQLGenerator).
    left. reflexivity.
  - apply (comparison_against_boolean leafUseAs leafSupportsEquality
             leafEqualsSQLString leafSQLString one two false
             (equality two one false) false NewSQLGenerator).
    right. reflexivity.
Defined.

(** [1 = age], on a column of the number kind. *)
Lemma number_against_number_kind_witness :
  sqlast.SQLString tracedUseAs tracedSupportsEquality tracedEqualsSQLString
    leafSQLString (equality one ageColumn false) NewSQLGenerator
  = ("1 = age", NewSQLGenerator).
Proof.
  apply (number_against_number_kind tracedUseAs tracedSupportsEquality
           tracedEqualsSQLString leafSQLString "1" "1" ageColumn false
           NewSQLGenerator).
  reflexivity.
Defined.

(** [Equality(age, 1)], on a column of the number kind that has no
    comparison method, renders [1 = age]. *)
Lemma declined_left_number_right_witness :
  sqlast.SQLString tracedUseAs (fun _ => false) tracedEqualsSQLString
    leafSQLString (equality ageColumn one false) NewSQLGenerator
  = ("1 = age", NewSQLGenerator).
Proof.
  apply (declined_left_number_right tracedUseAs (fun _ => false)
           tracedEqualsSQLString leafSQLString ageColumn "1" "1" false
           NewSQLGenerator NewSQLGenerator).
  - left. split; reflexivity.
  - reflexivity.
Defined.

(** [(1 = 2) = (2 != 1)] leaves the context as it is; [(1 = 2) = (2 != (1 = 1))]
    does not. *)
Lemma sourceOnly_no_error_witness :
  snd (SQLString (equality (equality one two false) (equality two one true) false)
                 NewSQLGenerator)
  = NewSQLGenerator
  /\ snd (SQLString (equality (equality one two false)
                              (equality two (equality one one false) true) false)
                    NewSQLGenerator)
     <> NewSQLGenerator.
Proof.
  split.
  - apply (proj2 (sourceOnly_no_error leafUseAs leafSupportsEquality
                    leafEqualsSQLString leafSQLString
                    (equality (equality one two false) (equality two one true)
                              false)
                    NewSQLGenerator eq_refl)).
    reflexivity.
  - intros H.
    apply (proj2 (sourceOnly_no_error leafUseAs leafSupportsEquality
                    leafEqualsSQLString leafSQLString
                    (equality (equality one two false)
                              (equality two (equality one one false) true)
                              false)
                    NewSQLGenerator eq_refl)) in H.
    discriminate H.
Defined.

End Examples.

End RenderingExtra.

(** * From a call to its SQL text *)
Module EndToEnd.
Import go_rego.

Section Props.

Variable Value_String : ast.Value -> string.
Variable Compare : ast.Value -> ast.Value -> Z.
Variable Array : sqlast.RegoSource -> list sqlast.Node -> sqlast.Node + error.
Variable otherUseAs : sqlast.Node -> sqlast.NodeType.
Variable otherSupportsEquality : sqlast.Node -> bool.
Variable otherEqualsSQLString :
  sqlast.Node -> sqlast.SQLGenerator -> bool -> sqlast.Node
  -> (string + error) * sqlast.SQLGenerator.
Variable otherSQLString :
  sqlast.Node -> sqlast.SQLGenerator -> string * sqlast.SQLGenerator.

Local Abbreviation convertCall := (convertCall Value_String Compare Array).
Local Abbreviation SQLString :=
  (sqlast.SQLString otherUseAs otherSupportsEquality otherEqualsSQLString
     otherSQLString).

(** X18. A call of an equality operator on two number literals compiles,
    without a call to the variable converter, to a node that renders to the
    two numbers, their text unchanged and in the order of the arguments,
    around [!=] for [neq] and [=] for the other names, and that records no
    error. *)
Theorem number_comparison_compiles cfg op x lx y ly :
  In (Term_String Value_String op) ["eq"; "neq"; "equals"; "equal"] ->
  exists n,
    convertCall cfg [op; ast.mkTerm (ast.Number x) lx; ast.mkTerm (ast.Number y) ly]
    = ([], Ok n)
    /\ forall g,
        SQLString n g
        = (x ++ " "
           ++ (if Term_String Value_String op =? "neq" then "!=" else "=")
           ++ " " ++ y, g).
Proof.
  intros Hop. unfold go_rego.convertCall, convertCallWith.
  change (index [op; ast.mkTerm (ast.Number x) lx; ast.mkTerm (ast.Number y) ly] 0)
    with (@ret ast.Term op).
  rewrite CompilerSpec.bind_ret_l.
  remember (Term_String Value_String op) as opString eqn:EopString.
  clear EopString. simpl in Hop.
  destruct Hop as [<-|[<-|[<-|[<-|[]]]]];
    (eexists; split; [reflexivity | intros g; reflexivity]).
Qed.

End Props.

(** *** The property on the test data *)
Section Examples.
Import testdata.

(** [neq(1.50, 2)] gives [1.50 != 2]. *)
Lemma number_comparison_compiles_witness :
  exists n,
    convertCall showValue compareValues anyArray cfg
      (call "neq" [term (ast.Number "1.50"); term (ast.Number "2")])
    = ([], Ok n)
    /\ forall g,
        sqlast.SQLString leafUseAs leafSupportsEquality leafEqualsSQLString
          leafSQLString n g
        = ("1.50 != 2", g).
Proof.
  apply (number_comparison_compiles showValue compareValues anyArray
           leafUseAs leafSupportsEquality leafEqualsSQLString leafSQLString
           cfg (ref ["neq"]) "1.50" None "2" None).
  simpl. tauto.
Defined.

End Examples.

End EndToEnd.
